(** * Add-on update resolution: a shallow embedding of [CAddonRepos]

    The development follows [xbmc/addons/AddonRepos.cpp] and
    [xbmc/addons/AddonRepos.h].  The [std::map] indices that are only
    searched and updated by key are finite maps ([gmap]); the
    [m_addonsByRepoMap] member, which the rebuild walks in key order and
    whose inner container is a [std::multimap], is an ordered association
    list so that iteration order and duplicates are visible. *)

From Stdlib Require Import ZArith Bool Ascii Permutation Sorted OrderedTypeEx.
From stdpp Require Import gmap strings list fin_maps sorting.

Open Scope string_scope.
Open Scope list_scope.

(** ** Strings *)

(** Modelled from the spec: [::tolower] of the C library in the default
    locale, which [StringUtils::StartsWithNoCase] applies to each byte; the
    helper is declared in [utils/StringUtils.h], absent from the sources at
    hand.  Only the letters [A]..[Z] are changed. *)
Definition tolower (c : ascii) : ascii :=
  let n := nat_of_ascii c in
  if (65 <=? n)%nat && (n <=? 90)%nat then ascii_of_nat (n + 32) else c.

(** Modelled from the spec: [StringUtils::StartsWithNoCase (s1, s2)], the
    case-insensitive prefix test ("its path starts with that entry's origin
    prefix (case-insensitive)"); [utils/StringUtils.cpp] is absent from the
    sources at hand.  The walk is over the prefix [s2]. *)
Fixpoint StartsWithNoCase (s1 s2 : string) {struct s2} : bool :=
  match s2 with
  | EmptyString => true
  | String c2 r2 =>
      match s1 with
      | EmptyString => false
      | String c1 r1 =>
          if Ascii.eqb (tolower c1) (tolower c2) then StartsWithNoCase r1 r2
          else false
      end
  end.

(** Lower-casing of a whole string, used to state the prefix property. *)
Fixpoint ToLower (s : string) : string :=
  match s with
  | EmptyString => EmptyString
  | String c r => String (tolower c) (ToLower r)
  end.

(** [s1] starts with [s2] once both are lower-cased. *)
Definition starts_with_nocase (s1 s2 : string) : Prop :=
  exists rest : string, ToLower s1 = ToLower s2 +:+ rest.

(** Modelled from the spec: [StringUtils::Split (input, delimiter)] for a
    one-character delimiter ("a delimited pair-list"); [utils/StringUtils.cpp]
    is absent from the sources at hand.  An empty input yields no piece, any
    other input yields one piece more than it has delimiters. *)
Fixpoint SplitTo (input : string) (delimiter : ascii) (piece : string)
  : list string :=
  match input with
  | EmptyString => [piece]
  | String c r =>
      if Ascii.eqb c delimiter then piece :: SplitTo r delimiter EmptyString
      else SplitTo r delimiter (piece +:+ String c EmptyString)
  end.

Definition Split (input : string) (delimiter : ascii) : list string :=
  match input with
  | EmptyString => []
  | _ => SplitTo input delimiter EmptyString
  end.

(** An entry has the pair delimiter when the byte occurs in it. *)
Fixpoint has_delimiter (entry : string) (delimiter : ascii) : bool :=
  match entry with
  | EmptyString => false
  | String c r => Ascii.eqb c delimiter || has_delimiter r delimiter
  end.

(** ** The trusted repository registry *)

(** [struct RepoInfo] of [AddonRepos.h]. *)
Record RepoInfo : Type := mkRepoInfo {
  m_repoId : string;
  m_origin : string
}.

(** [std::vector::front] and [std::vector::back]: undefined on an empty
    vector, hence partial. *)
Definition front {A : Type} (v : list A) : option A := head v.
Definition back {A : Type} (v : list A) : option A := last v.

(** The body of the [for] loop of [LoadOfficialRepoInfos]: one entry of the
    configuration is split at ['|'] and a [RepoInfo] is built from the first
    and the last piece.  [None] stands for the undefined behaviour of
    [front ()] on an empty vector. *)
Definition LoadOfficialRepoInfo (addonRepo : string) : option RepoInfo :=
  let tmpRepoInfo := Split addonRepo "|"%char in
  match front tmpRepoInfo, back tmpRepoInfo with
  | Some f, Some b => Some (mkRepoInfo f b)
  | _, _ => None
  end.

Fixpoint LoadOfficialRepoInfos_loop (officialAddonRepos : list string)
  (officialRepoInfos : list RepoInfo) : option (list RepoInfo) :=
  match officialAddonRepos with
  | [] => Some officialRepoInfos
  | addonRepo :: rest =>
      match LoadOfficialRepoInfo addonRepo with
      | Some newRepoInfo =>
          LoadOfficialRepoInfos_loop rest (officialRepoInfos ++ [newRepoInfo])
      | None => None
      end
  end.

(** [LoadOfficialRepoInfos], with the text returned by
    [CCompileInfo::GetOfficialAddonRepos ()] as its argument. *)
Definition LoadOfficialRepoInfos (GetOfficialAddonRepos : string)
  : option (list RepoInfo) :=
  let officialAddonRepos := Split GetOfficialAddonRepos ","%char in
  LoadOfficialRepoInfos_loop officialAddonRepos [].

(** ** Ordered containers *)

(** [std::multimap<std::string, V>::insert]: the container is kept in key
    order and a new element goes after the elements whose key is equal
    (the upper bound of its equal range). *)
Fixpoint multimap_insert {V : Type} (k : string) (v : V)
  (m : list (string * V)) : list (string * V) :=
  match m with
  | [] => [(k, v)]
  | (k', v') :: rest =>
      if String.ltb k k' then (k, v) :: m
      else (k', v') :: multimap_insert k v rest
  end.

(** [m[k].insert ({id, v})] on a
    [std::map<std::string, std::multimap<std::string, V>>]: [operator[]]
    finds the entry of [k] or creates an empty one at its place in key
    order. *)
Fixpoint map_at_insert {V : Type} (k id : string) (v : V)
  (m : list (string * list (string * V)))
  : list (string * list (string * V)) :=
  match m with
  | [] => [(k, multimap_insert id v [])]
  | (k', mm) :: rest =>
      match String.compare k k' with
      | Lt => (k, multimap_insert id v []) :: m
      | Eq => (k', multimap_insert id v mm) :: rest
      | Gt => (k', mm) :: map_at_insert k id v rest
      end
  end.

(** The order of the keys of [std::map] and [std::multimap]:
    [std::less<std::string>], the lexicographic order on bytes. *)
Definition key_lt (a b : string) : Prop := String.compare a b = Lt.

(** The keys of a [std::multimap] never decrease along the container. *)
Definition multimap_sorted {V : Type} (m : list (string * V)) : Prop :=
  StronglySorted (fun e1 e2 => ~ key_lt e2.1 e1.1) m.

(** The keys of a [std::map] increase along the container. *)
Definition map_sorted {V : Type} (m : list (string * V)) : Prop :=
  StronglySorted (fun e1 e2 => key_lt e1.1 e2.1) m.

(** A well-formed [std::map] of [std::multimap]s. *)
Definition byRepo_sorted {V : Type}
  (m : list (string * list (string * V))) : Prop :=
  map_sorted m /\ Forall (fun repo => multimap_sorted repo.2) m.

(** Two maps of multimaps have the same repositories, in the same order,
    and under each repository the same records, in some order. *)
Definition byRepo_same_groups {V : Type}
  (c1 c2 : list (string * list (string * V))) : Prop :=
  Forall2
    (fun repo1 repo2 =>
       repo1.1 = repo2.1 /\ List.map snd repo1.2 ≡ₚ List.map snd repo2.2)
    c1 c2.

(** ** The resolver *)

(** Modelled from the spec: the reason argument of
    [IsAddonDisabledWithReason], an enumeration declared in a header absent
    from the sources at hand.  The resolver only ever passes [INCOMPATIBLE]
    ("disabled for the specific reason incompatible"); the other reasons
    are not told apart. *)
Inductive AddonDisabledReason : Type :=
  | INCOMPATIBLE
  | OTHER_REASON.

Section AddonRepos.

(** [CAddonVersion] and its [operator>] are declared outside the sources
    at hand; they are parameters of the development. *)
Variable CAddonVersion : Type.
Variable vgt : CAddonVersion -> CAddonVersion -> bool.

(** The reserved origin of built-in add-ons. *)
Variable ORIGIN_SYSTEM : string.

(** The file-level [static std::vector<RepoInfo> officialRepoInfos], which
    [LoadOfficialRepoInfos] fills once, before first use. *)
Variable officialRepoInfos : list RepoInfo.

(** The part of [IAddon] the resolver reads. *)
Record IAddon : Type := mkAddon {
  ID : string;
  Origin : string;
  Path : string;
  Version : CAddonVersion
}.

(** The two queries of [CAddonMgr] the resolver calls. *)
Record CAddonMgr : Type := mkAddonMgr {
  IsCompatible : IAddon -> bool;
  IsAddonDisabledWithReason : string -> AddonDisabledReason -> bool
}.

(** The two queries of [CAddonDatabase] the loader calls; each fills the
    vector it is handed with the records it returns. *)
Record CAddonDatabase : Type := mkAddonDatabase {
  GetRepositoryContent : list IAddon;
  FindByAddonId : string -> list IAddon
}.

(** The data members of [CAddonRepos]. *)
Record CAddonRepos : Type := mkAddonRepos {
  m_allAddons : list IAddon;
  m_latestOfficialVersions : gmap string IAddon;
  m_latestPrivateVersions : gmap string IAddon;
  m_latestVersionsByRepo : gmap string (gmap string IAddon);
  m_addonsByRepoMap : list (string * list (string * IAddon))
}.

(** The member [const CAddonMgr& m_addonMgr], set by the constructor. *)
Variable m_addonMgr : CAddonMgr.

(** [IsFromOfficialRepo (addon, bCheckAddonPath)]. *)
Definition IsFromOfficialRepo (addon : IAddon) (bCheckAddonPath : bool)
  : bool :=
  let comparator (officialRepo : RepoInfo) : bool :=
    if bCheckAddonPath then
      String.eqb (Origin addon) (m_repoId officialRepo)
      && StartsWithNoCase (Path addon) (m_origin officialRepo)
    else String.eqb (Origin addon) (m_repoId officialRepo) in
  String.eqb (Origin addon) ORIGIN_SYSTEM
  || existsb comparator officialRepoInfos.

(** [IsFromOfficialRepo (addon)], the one-argument overload. *)
Definition IsFromOfficialRepo1 (addon : IAddon) : bool :=
  IsFromOfficialRepo addon false.

(** [AddAddonIfLatest (addonToAdd, map)]. *)
Definition AddAddonIfLatest (addonToAdd : IAddon)
  (map : gmap string IAddon) : gmap string IAddon :=
  match map !! ID addonToAdd with
  | None => <[ID addonToAdd := addonToAdd]> map
  | Some latestKnown =>
      if vgt (Version addonToAdd) (Version latestKnown)
      then <[ID addonToAdd := addonToAdd]> map
      else map
  end.

(** [AddAddonIfLatest (repoId, addonToAdd, map)], the overload for
    [m_latestVersionsByRepo]. *)
Definition AddAddonIfLatestByRepo (repoId : string) (addonToAdd : IAddon)
  (map : gmap string (gmap string IAddon))
  : gmap string (gmap string IAddon) :=
  match map !! repoId with
  | None => <[repoId := <[ID addonToAdd := addonToAdd]> ∅]> map
  | Some latestVersionEntryByRepo =>
      match latestVersionEntryByRepo !! ID addonToAdd with
      | None =>
          <[repoId :=
              <[ID addonToAdd := addonToAdd]> latestVersionEntryByRepo]> map
      | Some latestKnown =>
          if vgt (Version addonToAdd) (Version latestKnown)
          then <[repoId :=
                   <[ID addonToAdd := addonToAdd]> latestVersionEntryByRepo]>
                 map
          else map
      end
  end.

(** The body of the inner loop of [SetupLatestVersionMaps], for the
    element [addonMapEntry] of the repository [repo_first]. *)
Definition SetupLatestVersionMaps_entry (repo_first : string)
  (st : CAddonRepos) (addonMapEntry : string * IAddon) : CAddonRepos :=
  let addonToAdd := addonMapEntry.2 in
  let st' :=
    if IsFromOfficialRepo addonToAdd true then
      mkAddonRepos (m_allAddons st)
        (AddAddonIfLatest addonToAdd (m_latestOfficialVersions st))
        (m_latestPrivateVersions st)
        (m_latestVersionsByRepo st) (m_addonsByRepoMap st)
    else
      mkAddonRepos (m_allAddons st)
        (m_latestOfficialVersions st)
        (AddAddonIfLatest addonToAdd (m_latestPrivateVersions st))
        (m_latestVersionsByRepo st) (m_addonsByRepoMap st) in
  mkAddonRepos (m_allAddons st')
    (m_latestOfficialVersions st') (m_latestPrivateVersions st')
    (AddAddonIfLatestByRepo repo_first addonToAdd
       (m_latestVersionsByRepo st'))
    (m_addonsByRepoMap st').

(** The body of the outer loop: all the elements of one repository. *)
Definition SetupLatestVersionMaps_repo (st : CAddonRepos)
  (repo : string * list (string * IAddon)) : CAddonRepos :=
  let addonsPerRepo := repo.2 in
  fold_left (SetupLatestVersionMaps_entry repo.1) addonsPerRepo st.

(** [SetupLatestVersionMaps]: the three derived maps are cleared, then
    [m_addonsByRepoMap] is walked in its order. *)
Definition SetupLatestVersionMaps (st : CAddonRepos) : CAddonRepos :=
  let cleared :=
    mkAddonRepos (m_allAddons st) ∅ ∅ ∅ (m_addonsByRepoMap st) in
  fold_left SetupLatestVersionMaps_repo (m_addonsByRepoMap st) cleared.

(** The loop of [LoadAddonsFromDatabase] that fills [m_addonsByRepoMap]. *)
Definition LoadAddonsFromDatabase_group
  (byRepo : list (string * list (string * IAddon))) (addon : IAddon)
  : list (string * list (string * IAddon)) :=
  if IsCompatible m_addonMgr addon
  then map_at_insert (Origin addon) (ID addon) addon byRepo
  else byRepo.

(** [LoadAddonsFromDatabase (database, addonId)]; the debug log lines
    have no effect on the state and are left out. *)
Definition LoadAddonsFromDatabase (database : CAddonDatabase)
  (addonId : string) (st : CAddonRepos) : CAddonRepos :=
  let allAddons :=
    if String.eqb addonId "" then GetRepositoryContent database
    else FindByAddonId database addonId in
  let byRepo := fold_left LoadAddonsFromDatabase_group allAddons [] in
  SetupLatestVersionMaps
    (mkAddonRepos allAddons
       (m_latestOfficialVersions st) (m_latestPrivateVersions st)
       (m_latestVersionsByRepo st) byRepo).

(** [LoadAddonsFromDatabase (database)], the one-argument overload. *)
Definition LoadAddonsFromDatabase1 (database : CAddonDatabase)
  (st : CAddonRepos) : CAddonRepos :=
  LoadAddonsFromDatabase database "" st.

(** [FindAddonAndCheckForUpdate (addonToCheck, map, update)]: the result
    and the new value of the out-parameter [update], which is left as it
    was when the id is not in [map]. *)
Definition FindAddonAndCheckForUpdate (addonToCheck : IAddon)
  (map : gmap string IAddon) (update : option IAddon)
  : bool * option IAddon :=
  match map !! ID addonToCheck with
  | Some remote =>
      if vgt (Version remote) (Version addonToCheck)
         || IsAddonDisabledWithReason m_addonMgr (ID addonToCheck)
              INCOMPATIBLE
      then (true, Some remote)
      else (true, None)
  | None => (false, update)
  end.

(** [DoAddonUpdateCheck (addon, update)]: the result and the new value of
    the out-parameter; [update] is the value the caller's variable holds at
    entry, which [update.reset ()] discards. *)
Definition DoAddonUpdateCheck (st : CAddonRepos) (addon : IAddon)
  (update : option IAddon) : bool * option IAddon :=
  let update : option IAddon := None in
  let finish (update : option IAddon) : bool * option IAddon :=
    match update with
    | Some _ => (true, update)
    | None => (false, update)
    end in
  if String.eqb ORIGIN_SYSTEM (Origin addon) then
    let official :=
      FindAddonAndCheckForUpdate addon (m_latestOfficialVersions st) update in
    if negb official.1 then (false, official.2) else finish official.2
  else
    let official :=
      FindAddonAndCheckForUpdate addon (m_latestOfficialVersions st) update in
    if negb official.1 then
      let private :=
        FindAddonAndCheckForUpdate addon (m_latestPrivateVersions st)
          official.2 in
      if negb private.1 then (false, private.2) else finish private.2
    else finish official.2.

(** [BuildUpdateList (installed, updates)]: the vector [updates] after the
    call.  One local [update] is shared by all the iterations, and what it
    holds is appended whenever the check returns [true]. *)
Fixpoint BuildUpdateList_loop (st : CAddonRepos) (installed : list IAddon)
  (update : option IAddon) (updates : list (option IAddon))
  : list (option IAddon) :=
  match installed with
  | [] => updates
  | addon :: rest =>
      let r := DoAddonUpdateCheck st addon update in
      if r.1 then BuildUpdateList_loop st rest r.2 (updates ++ [r.2])
      else BuildUpdateList_loop st rest r.2 updates
  end.

Definition BuildUpdateList (st : CAddonRepos) (installed : list IAddon)
  (updates : list (option IAddon)) : list (option IAddon) :=
  BuildUpdateList_loop st installed None updates.

(** The records a load fetches from [database]: all of them, or those of
    [addonId] when it is given. *)
Definition fetched (database : CAddonDatabase) (addonId : string)
  : list IAddon :=
  if String.eqb addonId "" then GetRepositoryContent database
  else FindByAddonId database addonId.

(** The elements of [m_addonsByRepoMap] in the order the rebuild visits
    them, each with the key of its repository. *)
Definition byRepo_entries (byRepo : list (string * list (string * IAddon)))
  : list (string * IAddon) :=
  flat_map (fun repo => List.map (fun e => (repo.1, e.2)) repo.2) byRepo.

(** The records [m_addonsByRepoMap] holds under one repository key and
    one id key, in the order of the container. *)
Definition byRepo_records (repoId id : string)
  (byRepo : list (string * list (string * IAddon))) : list IAddon :=
  flat_map
    (fun repo =>
       if String.eqb repo.1 repoId
       then List.map snd (List.filter (fun e => String.eqb e.1 id) repo.2)
       else [])
    byRepo.

(** The candidate-latest map after [AddAddonIfLatest] has been offered,
    in order, the records of [entries] that [sel] selects. *)
Definition latest_of (sel : string * IAddon -> bool)
  (entries : list (string * IAddon)) (map : gmap string IAddon)
  : gmap string IAddon :=
  fold_left
    (fun m e => if sel e then AddAddonIfLatest e.2 m else m) entries map.

(** The id-to-record map [m_latestVersionsByRepo] holds for a repository;
    empty when the repository has no entry. *)
Definition repo_latest (byRepo : gmap string (gmap string IAddon))
  (repoId : string) : gmap string IAddon :=
  default ∅ (byRepo !! repoId).

(** [a >= b] on versions, as the version type derives it from its
    comparison: [b] is not greater than [a]. *)
Definition vge (a b : CAddonVersion) : bool := negb (vgt b a).

(** [remote] is what the search of [DoAddonUpdateCheck] finds for
    [addon]: the entry of [m_latestOfficialVersions], or else, for an
    add-on that is not of system origin, the entry of
    [m_latestPrivateVersions]. *)
Definition found_in_searched_map (st : CAddonRepos) (addon remote : IAddon)
  : Prop :=
  m_latestOfficialVersions st !! ID addon = Some remote \/
  (Origin addon <> ORIGIN_SYSTEM /\
   m_latestOfficialVersions st !! ID addon = None /\
   m_latestPrivateVersions st !! ID addon = Some remote).

(** Two versions compare equal when neither is greater. *)
Definition veq (a b : CAddonVersion) : bool :=
  negb (vgt a b) && negb (vgt b a).

(** Two lookups agree up to the version held: both miss, or both hit
    records whose versions compare equal. *)
Definition same_latest (x y : option IAddon) : Prop :=
  match x, y with
  | None, None => True
  | Some a, Some b => veq (Version a) (Version b) = true
  | _, _ => False
  end.

(** No two distinct records of [l] that [sel] selects have the same id
    and versions that compare equal. *)
Definition no_ties (sel : IAddon -> bool) (l : list IAddon) : Prop :=
  forall a b,
    a ∈ l -> b ∈ l -> sel a = true -> sel b = true ->
    ID a = ID b -> veq (Version a) (Version b) = true -> a = b.

(** [w] is the record the walk of the rebuild holds in the end among the
    records of [l] that [sel] selects under its id, in whatever order they
    were fetched: it is newer than every other such record of its own
    repository and of the repositories walked before it, and no such
    record of a repository walked after it is newer. *)
Definition first_greatest (sel : IAddon -> bool) (l : list IAddon)
  (w : IAddon) : Prop :=
  w ∈ l /\ sel w = true /\
  forall a, a ∈ l -> sel a = true -> ID a = ID w ->
    a = w \/
    if String.ltb (Origin w) (Origin a)
    then vgt (Version a) (Version w) = false
    else vgt (Version w) (Version a) = true.

End AddonRepos.

Arguments mkAddon {CAddonVersion}.
Arguments ID {CAddonVersion}.
Arguments Origin {CAddonVersion}.
Arguments Path {CAddonVersion}.
Arguments Version {CAddonVersion}.
Arguments mkAddonMgr {CAddonVersion}.
Arguments IsCompatible {CAddonVersion}.
Arguments IsAddonDisabledWithReason {CAddonVersion}.
Arguments mkAddonDatabase {CAddonVersion}.
Arguments GetRepositoryContent {CAddonVersion}.
Arguments FindByAddonId {CAddonVersion}.
Arguments mkAddonRepos {CAddonVersion}.
Arguments m_allAddons {CAddonVersion}.
Arguments m_latestOfficialVersions {CAddonVersion}.
Arguments m_latestPrivateVersions {CAddonVersion}.
Arguments m_latestVersionsByRepo {CAddonVersion}.
Arguments m_addonsByRepoMap {CAddonVersion}.
Arguments IsFromOfficialRepo {CAddonVersion}.
Arguments IsFromOfficialRepo1 {CAddonVersion}.
Arguments AddAddonIfLatest {CAddonVersion}.
Arguments AddAddonIfLatestByRepo {CAddonVersion}.
Arguments SetupLatestVersionMaps_entry {CAddonVersion}.
Arguments SetupLatestVersionMaps_repo {CAddonVersion}.
Arguments SetupLatestVersionMaps {CAddonVersion}.
Arguments LoadAddonsFromDatabase_group {CAddonVersion}.
Arguments LoadAddonsFromDatabase {CAddonVersion}.
Arguments LoadAddonsFromDatabase1 {CAddonVersion}.
Arguments FindAddonAndCheckForUpdate {CAddonVersion}.
Arguments DoAddonUpdateCheck {CAddonVersion}.
Arguments BuildUpdateList_loop {CAddonVersion}.
Arguments BuildUpdateList {CAddonVersion}.
Arguments fetched {CAddonVersion}.
Arguments byRepo_entries {CAddonVersion}.
Arguments byRepo_records {CAddonVersion}.
Arguments latest_of {CAddonVersion}.
Arguments repo_latest {CAddonVersion}.
Arguments vge {CAddonVersion}.
Arguments veq {CAddonVersion}.
Arguments same_latest {CAddonVersion}.
Arguments no_ties {CAddonVersion}.
Arguments first_greatest {CAddonVersion}.
Arguments found_in_searched_map {CAddonVersion}.

(** ** A concrete instance

    Versions are integers compared with [>]; there is one trusted
    repository, and the add-on manager accepts every record and reports
    the add-on [plugin.broken] as disabled for incompatibility. *)
Module Sample.

Definition SYSTEM : string := "b6a50484-93a0-4afb-a01c-8d17e059feda".

Definition official : list RepoInfo :=
  [mkRepoInfo "repository.xbmc.org" "https://mirrors.kodi.tv"].

Definition mgr : CAddonMgr Z :=
  mkAddonMgr (fun _ => true)
    (fun id reason =>
       match reason with
       | INCOMPATIBLE => String.eqb id "plugin.broken"
       | _ => false
       end).

(** two records of one repository, one id and one version *)
Definition a1 : IAddon Z := mkAddon "A" "repoX" "/x/first" 1%Z.
Definition a1' : IAddon Z := mkAddon "A" "repoX" "/x/second" 1%Z.
Definition a2 : IAddon Z := mkAddon "A" "repoX" "/x/third" 2%Z.
Definition a_off : IAddon Z :=
  mkAddon "A" "repository.xbmc.org" "HTTPS://Mirrors.Kodi.TV/addons/A" 1%Z.
Definition a_spoof : IAddon Z :=
  mkAddon "A" "repository.xbmc.org" "https://evil.example/A" 9%Z.
Definition a_sys : IAddon Z := mkAddon "A" SYSTEM "/usr/share/A" 1%Z.
Definition broken : IAddon Z :=
  mkAddon "plugin.broken" "repoX" "/x/broken" 3%Z.
Definition broken_remote : IAddon Z :=
  mkAddon "plugin.broken" "repoX" "/x/broken.zip" 3%Z.
(** a record of another repository with the id and the version of [a1] *)
Definition aY : IAddon Z := mkAddon "A" "repoY" "/y/first" 1%Z.

Definition empty_repos : CAddonRepos Z := mkAddonRepos [] ∅ ∅ ∅ [].

Definition db (records : list (IAddon Z)) : CAddonDatabase Z :=
  mkAddonDatabase records
    (fun id => List.filter (fun a => String.eqb (ID a) id) records).

Definition load (records : list (IAddon Z)) : CAddonRepos Z :=
  LoadAddonsFromDatabase1 Z.gtb SYSTEM official mgr (db records)
    empty_repos.

End Sample.

(** * Properties *)

(** ** Strings and the registry *)

Lemma append_empty_r (s : string) : s +:+ "" = s.
Proof.
  induction s as [|c r IH]; [reflexivity|].
  change (String c (r +:+ "") = String c r). now rewrite IH.
Qed.

Lemma append_snoc (piece : string) (c : ascii) (r : string) :
  (piece +:+ String c "") +:+ r = piece +:+ String c r.
Proof.
  induction piece as [|p ps IH]; [reflexivity|].
  change (String p ((ps +:+ String c "") +:+ r) = String p (ps +:+ String c r)).
  now rewrite IH.
Qed.

Lemma StartsWithNoCase_iff (s1 s2 : string) :
  StartsWithNoCase s1 s2 = true <-> starts_with_nocase s1 s2.
Proof.
  revert s1. induction s2 as [|c2 r2 IH]; intros s1; simpl.
  - split; [intros _; exists (ToLower s1); reflexivity | reflexivity].
  - destruct s1 as [|c1 r1].
    + split; [discriminate | intros [rest H]; discriminate H].
    + destruct (Ascii.eqb (tolower c1) (tolower c2)) eqn:E.
      * apply Ascii.eqb_eq in E. rewrite IH. unfold starts_with_nocase.
        split; intros [rest H]; exists rest.
        -- change (String (tolower c1) (ToLower r1)
                   = String (tolower c2) (ToLower r2 +:+ rest)).
           now rewrite E, H.
        -- change (String (tolower c1) (ToLower r1)
                   = String (tolower c2) (ToLower r2 +:+ rest)) in H.
           now injection H.
      * apply Ascii.eqb_neq in E.
        split; [discriminate | intros [rest H]].
        change (String (tolower c1) (ToLower r1)
                = String (tolower c2) (ToLower r2 +:+ rest)) in H.
        injection H as H1 _. contradiction.
Qed.

Lemma SplitTo_no_delimiter (entry : string) (d : ascii) (piece : string) :
  has_delimiter entry d = false -> SplitTo entry d piece = [piece +:+ entry].
Proof.
  revert piece. induction entry as [|c r IH]; intros piece H; simpl in *.
  - now rewrite append_empty_r.
  - apply orb_false_iff in H as [Hc Hr].
    now rewrite Hc, (IH _ Hr), append_snoc.
Qed.

Lemma Split_no_delimiter (entry : string) (d : ascii) :
  entry <> "" -> has_delimiter entry d = false -> Split entry d = [entry].
Proof.
  intros Hne H. destruct entry as [|c r]; [contradiction|].
  unfold Split. now rewrite SplitTo_no_delimiter.
Qed.

Lemma SplitTo_not_nil (input : string) (d : ascii) (piece : string) :
  SplitTo input d piece <> [].
Proof.
  revert piece. induction input as [|c r IH]; intros piece; simpl.
  - discriminate.
  - destruct (Ascii.eqb c d); [discriminate | apply IH].
Qed.

Lemma LoadOfficialRepoInfo_defined (entry : string) :
  entry <> "" -> is_Some (LoadOfficialRepoInfo entry).
Proof.
  intros Hne. unfold LoadOfficialRepoInfo, front, back.
  destruct (Split entry "|") as [|p ps] eqn:E.
  - destruct entry; [contradiction|]. unfold Split in E.
    now apply SplitTo_not_nil in E.
  - simpl. destruct (last_is_Some (p :: ps)) as [_ [b Hb]]; [discriminate|].
    rewrite Hb. eauto.
Qed.

Lemma LoadOfficialRepoInfos_loop_defined (entries : list string)
  (acc : list RepoInfo) :
  (forall e, e ∈ entries -> e <> "") ->
  exists infos,
    LoadOfficialRepoInfos_loop entries acc = Some infos /\
    (forall r, r ∈ acc -> r ∈ infos) /\
    (forall e r, e ∈ entries -> LoadOfficialRepoInfo e = Some r -> r ∈ infos).
Proof.
  revert acc. induction entries as [|e rest IH]; intros acc Hne; simpl.
  - exists acc. split; [reflexivity|]. split; [auto|].
    intros e r He. now apply elem_of_nil in He.
  - destruct (LoadOfficialRepoInfo_defined e) as [r Hr].
    { apply Hne. left. }
    rewrite Hr.
    destruct (IH (acc ++ [r])) as (infos & Hrun & Hacc & Hrest).
    { intros e' He'. apply Hne. now right. }
    exists infos. split; [exact Hrun|]. split.
    + intros r' Hr'. apply Hacc. apply elem_of_app. now left.
    + intros e' r' He' Hr'. apply elem_of_cons in He' as [-> | He'].
      * rewrite Hr in Hr'. injection Hr' as <-.
        apply Hacc. apply elem_of_app. right. left.
      * eapply Hrest; eauto.
Qed.

(** C9, as the code has it: when no entry of the configuration is empty,
    [LoadOfficialRepoInfos] returns a registry, and every entry that lacks
    the pair delimiter has become a registry entry whose repository id and
    origin prefix are both the whole text of the entry; no failure is
    reported. *)
Theorem LoadOfficialRepoInfos_missing_delimiter (config : string) :
  (forall e, e ∈ Split config "," -> e <> "") ->
  exists infos,
    LoadOfficialRepoInfos config = Some infos /\
    forall e, e ∈ Split config "," -> has_delimiter e "|" = false ->
              mkRepoInfo e e ∈ infos.
Proof.
  intros Hne. unfold LoadOfficialRepoInfos.
  destruct (LoadOfficialRepoInfos_loop_defined (Split config ",") [] Hne)
    as (infos & Hrun & _ & Hall).
  exists infos. split; [exact Hrun|].
  intros e He Hd. apply (Hall e _ He).
  unfold LoadOfficialRepoInfo.
  now rewrite (Split_no_delimiter e "|" (Hne e He) Hd).
Qed.

(** C9, as stated, fails: the entry [repository.example] has no pair
    delimiter, and the registry is built with an entry made from it. *)
Lemma LoadOfficialRepoInfos_missing_delimiter_accepted :
  has_delimiter "repository.example" "|" = false /\
  LoadOfficialRepoInfos
    "repository.xbmc.org|https://mirrors.kodi.tv,repository.example"
  = Some [mkRepoInfo "repository.xbmc.org" "https://mirrors.kodi.tv";
          mkRepoInfo "repository.example" "repository.example"].
Proof. split; reflexivity. Qed.

Lemma LoadOfficialRepoInfos_missing_delimiter_witness :
  exists infos,
    LoadOfficialRepoInfos "repository.xbmc.org|https://mirrors.kodi.tv,foo"
    = Some infos /\
    forall e,
      e ∈ Split "repository.xbmc.org|https://mirrors.kodi.tv,foo" "," ->
      has_delimiter e "|" = false -> mkRepoInfo e e ∈ infos.
Proof.
  apply (LoadOfficialRepoInfos_missing_delimiter
           "repository.xbmc.org|https://mirrors.kodi.tv,foo").
  intros e He. vm_compute in He.
  apply elem_of_cons in He as [-> | He]; [discriminate|].
  apply elem_of_cons in He as [-> | He]; [discriminate|].
  now apply elem_of_nil in He.
Defined.

(** *** Further properties of the registry loader *)

Lemma append_cons_assoc (a : string) (c : ascii) (b rest : string) :
  (a +:+ String c b) +:+ rest = a +:+ String c (b +:+ rest).
Proof.
  induction a as [|x a IH]; [reflexivity|].
  change (String x ((a +:+ String c b) +:+ rest)
          = String x (a +:+ String c (b +:+ rest))).
  now rewrite IH.
Qed.

Lemma Split_of_nonempty (a : string) (c : ascii) (b : string) (d : ascii) :
  Split (a +:+ String c b) d = SplitTo (a +:+ String c b) d "".
Proof. destruct a; reflexivity. Qed.

(** The first piece ends at the first delimiter. *)
Lemma SplitTo_first_piece (a b : string) (d : ascii) (piece : string) :
  has_delimiter a d = false ->
  SplitTo (a +:+ String d b) d piece = (piece +:+ a) :: SplitTo b d "".
Proof.
  revert piece. induction a as [|c r IH]; intros piece H.
  - change (SplitTo (String d b) d piece = (piece +:+ "") :: SplitTo b d "").
    cbn. now rewrite Ascii.eqb_refl, append_empty_r.
  - cbn in H. apply orb_false_iff in H as [Hc Hr].
    change (SplitTo (String c (r +:+ String d b)) d piece
            = (piece +:+ String c r) :: SplitTo b d "").
    cbn. now rewrite Hc, (IH _ Hr), append_snoc.
Qed.

(** The last piece starts behind the last delimiter. *)
Lemma SplitTo_last_piece (a b : string) (d : ascii) (piece : string) :
  has_delimiter b d = false ->
  last (SplitTo (a +:+ String d b) d piece) = Some b.
Proof.
  revert piece. induction a as [|c r IH]; intros piece H.
  - change (last (SplitTo (String d b) d piece) = Some b).
    cbn [SplitTo]. rewrite Ascii.eqb_refl.
    now rewrite (SplitTo_no_delimiter b d "" H).
  - change (last (SplitTo (String c (r +:+ String d b)) d piece) = Some b).
    cbn [SplitTo]. destruct (Ascii.eqb c d).
    + rewrite last_cons. now rewrite (IH "" H).
    + now apply IH.
Qed.

(** X15: an entry [repoId|origin] whose two parts hold no pair delimiter
    becomes the registry entry of repository id [repoId] and origin prefix
    [origin]; when the entry has further pieces between them, they are
    ignored. *)
Theorem LoadOfficialRepoInfo_of_pair (repoId origin : string) :
  has_delimiter repoId "|" = false ->
  has_delimiter origin "|" = false ->
  LoadOfficialRepoInfo (repoId +:+ String "|" origin)
  = Some (mkRepoInfo repoId origin) /\
  forall middle : string,
    LoadOfficialRepoInfo
      (repoId +:+ String "|" (middle +:+ String "|" origin))
    = Some (mkRepoInfo repoId origin).
Proof.
  intros Hf Hl. unfold LoadOfficialRepoInfo, front, back. split.
  - rewrite Split_of_nonempty.
    rewrite (SplitTo_last_piece repoId origin "|" "" Hl).
    now rewrite (SplitTo_first_piece repoId origin "|" "" Hf).
  - intros middle. rewrite Split_of_nonempty.
    assert (last
              (SplitTo
                 (repoId +:+ String "|" (middle +:+ String "|" origin))
                 "|" "") = Some origin) as ->.
    { rewrite <- append_cons_assoc. now apply SplitTo_last_piece. }
    now rewrite (SplitTo_first_piece repoId _ "|" "" Hf).
Qed.

Lemma LoadOfficialRepoInfos_loop_mapM (entries : list string)
  (acc : list RepoInfo) :
  LoadOfficialRepoInfos_loop entries acc
  = (fun infos => acc ++ infos) <$> mapM LoadOfficialRepoInfo entries.
Proof.
  revert acc. induction entries as [|e rest IH]; intros acc; cbn.
  - now rewrite app_nil_r.
  - destruct (LoadOfficialRepoInfo e) as [r|]; cbn; [|reflexivity].
    rewrite IH. destruct (mapM LoadOfficialRepoInfo rest) as [infos|]; cbn;
      [|reflexivity].
    now rewrite <- app_assoc.
Qed.

(** X16: the registry has one entry for each piece of the configuration
    between commas, in the order of the configuration, each built from its
    piece alone; an empty configuration gives an empty registry. *)
Theorem LoadOfficialRepoInfos_entrywise (config : string)
  (infos : list RepoInfo) :
  (LoadOfficialRepoInfos config = Some infos <->
   Forall2 (fun entry info => LoadOfficialRepoInfo entry = Some info)
     (Split config ",") infos) /\
  (config = "" -> LoadOfficialRepoInfos config = Some []).
Proof.
  split.
  - unfold LoadOfficialRepoInfos. rewrite LoadOfficialRepoInfos_loop_mapM.
    rewrite <- mapM_Some.
    destruct (mapM LoadOfficialRepoInfo (Split config ",")); cbn;
      split; congruence.
  - intros ->. reflexivity.
Qed.

(** ** Ordered containers *)

Lemma ltb_key_lt (a b : string) : String.ltb a b = true <-> key_lt a b.
Proof.
  unfold String.ltb, key_lt.
  destruct (String.compare a b); split; congruence.
Qed.

Lemma key_lt_trans (a b c : string) : key_lt a b -> key_lt b c -> key_lt a c.
Proof.
  unfold key_lt. intros Hab Hbc.
  apply String_as_OT.cmp_lt. apply String_as_OT.cmp_lt in Hab, Hbc.
  eapply String_as_OT.lt_trans; eauto.
Qed.

Lemma key_lt_irrefl (a : string) : ~ key_lt a a.
Proof.
  unfold key_lt. intros H. pose proof (String.compare_antisym a a) as E.
  rewrite H in E. discriminate E.
Qed.

Lemma compare_Gt_key_lt (a b : string) :
  String.compare a b = Gt -> key_lt b a.
Proof.
  unfold key_lt. intros H. rewrite String.compare_antisym in H.
  destruct (String.compare b a); simpl in H; congruence.
Qed.

Lemma multimap_insert_keys {V : Type} (P : string -> Prop) (k : string)
  (v : V) (m : list (string * V)) :
  P k -> Forall (fun e => P e.1) m ->
  Forall (fun e => P e.1) (multimap_insert k v m).
Proof.
  intros Hk Hm. induction m as [|[k' v'] m IH]; simpl.
  - constructor; auto.
  - destruct (String.ltb k k').
    + constructor; auto.
    + inversion Hm; subst. constructor; auto.
Qed.

(** [insert] keeps a [std::multimap] in key order. *)
Lemma multimap_insert_sorted {V : Type} (k : string) (v : V)
  (m : list (string * V)) :
  multimap_sorted m -> multimap_sorted (multimap_insert k v m).
Proof.
  unfold multimap_sorted. induction m as [|[k' v'] m IH]; intros Hs; simpl.
  - constructor; constructor.
  - inversion Hs as [|? ? Hm Hall]; subst.
    destruct (String.ltb k k') eqn:E.
    + apply ltb_key_lt in E. constructor; [exact Hs|].
      constructor.
      * cbn. intros H. exact (key_lt_irrefl _ (key_lt_trans _ _ _ H E)).
      * eapply Forall_impl; [exact Hall|]. cbn. intros [k2 v2] H2 H.
        cbn in *. apply H2. eapply key_lt_trans; eauto.
    + constructor; [now apply IH|].
      apply (multimap_insert_keys (fun x => ~ key_lt x k')); [|exact Hall].
      intros H. apply ltb_key_lt in H. congruence.
Qed.

Lemma filter_key_none {V : Type} (i : string) (m : list (string * V)) :
  Forall (fun e => e.1 <> i) m ->
  List.filter (fun e : string * V => String.eqb e.1 i) m = [].
Proof.
  induction 1 as [|[k v] m Hk _ IH]; [reflexivity|]. cbn in *.
  destruct (String.eqb_spec k i); [contradiction | exact IH].
Qed.

(** In a [std::multimap] in key order, [insert] puts the new element
    behind the elements of its key. *)
Lemma multimap_insert_equal_range {V : Type} (i id : string) (v : V)
  (m : list (string * V)) :
  multimap_sorted m ->
  List.filter (fun e : string * V => String.eqb e.1 i)
    (multimap_insert id v m)
  = List.filter (fun e : string * V => String.eqb e.1 i) m
      ++ (if String.eqb id i then [(id, v)] else []).
Proof.
  unfold multimap_sorted. induction m as [|[k' v'] m IH]; intros Hs.
  - cbn. now destruct (String.eqb id i).
  - inversion Hs as [|? ? Hm Hall]; subst. cbn [multimap_insert].
    destruct (String.ltb id k') eqn:E.
    + apply ltb_key_lt in E.
      change ((id, v) :: (k', v') :: m) with ([(id, v)] ++ (k', v') :: m).
      rewrite List.filter_app.
      assert (List.filter (fun e : string * V => String.eqb e.1 i) [(id, v)]
              = if String.eqb id i then [(id, v)] else []) as ->
          by (cbn; now destruct (String.eqb id i)).
      destruct (String.eqb_spec id i) as [->|Hne];
        [|now rewrite app_nil_r].
      rewrite (filter_key_none i ((k', v') :: m)); [reflexivity|].
      constructor.
      * cbn. intros ->. exact (key_lt_irrefl _ E).
      * eapply Forall_impl; [exact Hall|]. cbn. intros [k2 v2] H2 <-.
        now apply H2.
    + cbn [List.filter fst]. rewrite (IH Hm).
      now destruct (String.eqb k' i).
Qed.

Lemma map_at_insert_keys {V : Type} (P : string -> Prop) (k id : string)
  (v : V) (m : list (string * list (string * V))) :
  P k -> Forall (fun repo => P repo.1) m ->
  Forall (fun repo => P repo.1) (map_at_insert k id v m).
Proof.
  intros Hk Hm. induction m as [|[k' mm] m IH]; simpl.
  - constructor; auto.
  - inversion Hm; subst. destruct (String.compare k k'); constructor; auto.
Qed.

(** [m[k].insert (...)] keeps the map of multimaps well formed. *)
Lemma map_at_insert_sorted {V : Type} (k id : string) (v : V)
  (m : list (string * list (string * V))) :
  byRepo_sorted m -> byRepo_sorted (map_at_insert k id v m).
Proof.
  unfold byRepo_sorted, map_sorted.
  induction m as [|[k' mm] m IH]; intros [Hs Hin]; simpl.
  - split; repeat constructor.
  - inversion Hs as [|? ? Hm Hall]; subst.
    inversion Hin as [|? ? Hmm Hrest]; subst. cbn in Hmm.
    destruct (String.compare k k') eqn:E.
    + apply String.compare_eq_iff in E as <-. split.
      * constructor; auto.
      * constructor; [|exact Hrest]. cbn. now apply multimap_insert_sorted.
    + split.
      * constructor; [exact Hs|]. constructor; [exact E|].
        eapply Forall_impl; [exact Hall|]. cbn. intros [k2 m2] H2.
        cbn in *. eapply key_lt_trans; eauto.
      * constructor; [|exact Hin]. cbn. repeat constructor.
    + destruct (IH (conj Hm Hrest)) as [Hs' Hin']. split.
      * constructor; [exact Hs'|].
        apply (map_at_insert_keys (fun x => key_lt k' x)); [|exact Hall].
        now apply compare_Gt_key_lt.
      * constructor; auto.
Qed.

(** ** The classification predicate and the update check *)

Section Resolver.

Variable CAddonVersion : Type.
Variable vgt : CAddonVersion -> CAddonVersion -> bool.
Variable ORIGIN_SYSTEM : string.
Variable officialRepoInfos : list RepoInfo.
Variable m_addonMgr : CAddonMgr CAddonVersion.

Local Abbreviation Addon := (IAddon CAddonVersion).
Local Abbreviation Repos := (CAddonRepos CAddonVersion).
Local Abbreviation official_check :=
  (IsFromOfficialRepo ORIGIN_SYSTEM officialRepoInfos).
Local Abbreviation check := (DoAddonUpdateCheck vgt ORIGIN_SYSTEM m_addonMgr).
Local Abbreviation find := (FindAddonAndCheckForUpdate vgt m_addonMgr).
Local Abbreviation disabled addon :=
  (IsAddonDisabledWithReason m_addonMgr (ID addon) INCOMPATIBLE).

(** C4: for either call shape, a record is official exactly when its
    origin is the system origin, or some registry entry has its origin as
    repository id and, when the path check is asked for, its path starts
    with the origin prefix of that same entry, case ignored. *)
Theorem IsFromOfficialRepo_spec (addon : Addon) :
  (forall bCheckAddonPath : bool,
      IsFromOfficialRepo ORIGIN_SYSTEM officialRepoInfos addon
        bCheckAddonPath = true <->
      Origin addon = ORIGIN_SYSTEM \/
      exists officialRepo,
        officialRepo ∈ officialRepoInfos /\
        m_repoId officialRepo = Origin addon /\
        (bCheckAddonPath = true ->
         starts_with_nocase (Path addon) (m_origin officialRepo))) /\
  IsFromOfficialRepo1 ORIGIN_SYSTEM officialRepoInfos addon
  = IsFromOfficialRepo ORIGIN_SYSTEM officialRepoInfos addon false.
Proof.
  split; [|reflexivity].
  intros b. unfold IsFromOfficialRepo.
  rewrite orb_true_iff, String.eqb_eq, existsb_exists.
  split; (intros [Hsys | (r & Hin & Hr)]; [now left | right; exists r]).
  - apply list_elem_of_In in Hin. split; [exact Hin|].
    destruct b.
    + apply andb_true_iff in Hr as [Ho Hp]. apply String.eqb_eq in Ho.
      split; [now symmetry|]. intros _. now apply StartsWithNoCase_iff.
    + apply String.eqb_eq in Hr. split; [now symmetry | discriminate].
  - destruct Hr as (Hid & Hpath). split; [now apply list_elem_of_In|].
    destruct b.
    + apply andb_true_iff. split.
      * now apply String.eqb_eq.
      * apply StartsWithNoCase_iff. now apply Hpath.
    + now apply String.eqb_eq.
Qed.

Lemma check_of_official_hit (st : Repos) (addon remote : Addon)
  (update : option Addon) :
  m_latestOfficialVersions st !! ID addon = Some remote ->
  check st addon update =
  if vgt (Version remote) (Version addon) || disabled addon
  then (true, Some remote) else (false, None).
Proof.
  intros H. unfold DoAddonUpdateCheck, FindAddonAndCheckForUpdate.
  rewrite H.
  destruct (String.eqb ORIGIN_SYSTEM (Origin addon));
    destruct (vgt (Version remote) (Version addon) || disabled addon);
    reflexivity.
Qed.

Lemma check_of_private_hit (st : Repos) (addon remote : Addon)
  (update : option Addon) :
  Origin addon <> ORIGIN_SYSTEM ->
  m_latestOfficialVersions st !! ID addon = None ->
  m_latestPrivateVersions st !! ID addon = Some remote ->
  check st addon update =
  if vgt (Version remote) (Version addon) || disabled addon
  then (true, Some remote) else (false, None).
Proof.
  intros Hsys Hoff Hpriv.
  unfold DoAddonUpdateCheck, FindAddonAndCheckForUpdate.
  rewrite Hoff, Hpriv.
  destruct (String.eqb_spec ORIGIN_SYSTEM (Origin addon)) as [E|_];
    [now symmetry in E|].
  destruct (vgt (Version remote) (Version addon) || disabled addon);
    reflexivity.
Qed.

Lemma check_of_system_miss (st : Repos) (addon : Addon)
  (update : option Addon) :
  Origin addon = ORIGIN_SYSTEM ->
  m_latestOfficialVersions st !! ID addon = None ->
  check st addon update = (false, None).
Proof.
  intros Hsys Hoff. unfold DoAddonUpdateCheck, FindAddonAndCheckForUpdate.
  rewrite Hoff, <- Hsys, String.eqb_refl. reflexivity.
Qed.

(** C1: for an installed record that is not of system origin, when the
    official map has its id the answer is the same whatever the private
    map holds, and it is "no update" when the official record is not
    newer and the installed one is not disabled for incompatibility; the
    private map decides only when the official map lacks the id. *)
Theorem DoAddonUpdateCheck_private_only_on_miss (st : Repos)
  (addon : Addon) (update : option Addon) :
  Origin addon <> ORIGIN_SYSTEM ->
  let result :=
    DoAddonUpdateCheck vgt ORIGIN_SYSTEM m_addonMgr st addon update in
  (forall remote,
      m_latestOfficialVersions st !! ID addon = Some remote ->
      (forall st' update',
          m_latestOfficialVersions st' = m_latestOfficialVersions st ->
          DoAddonUpdateCheck vgt ORIGIN_SYSTEM m_addonMgr st' addon update'
          = result) /\
      (vgt (Version remote) (Version addon) = false ->
       IsAddonDisabledWithReason m_addonMgr (ID addon) INCOMPATIBLE = false ->
       result = (false, None))) /\
  (m_latestOfficialVersions st !! ID addon = None ->
   result =
   let r :=
     FindAddonAndCheckForUpdate vgt m_addonMgr addon
       (m_latestPrivateVersions st) None in
   (r.1 && bool_decide (is_Some r.2), r.2)).
Proof.
  intros Hsys result. subst result. split.
  - intros remote Hoff. split.
    + intros st' update' Hsame.
      rewrite (check_of_official_hit st addon remote update Hoff).
      apply check_of_official_hit. now rewrite Hsame.
    + intros Hv Hd.
      rewrite (check_of_official_hit st addon remote update Hoff).
      now rewrite Hv, Hd.
  - intros Hoff. unfold DoAddonUpdateCheck, FindAddonAndCheckForUpdate.
    rewrite Hoff.
    destruct (String.eqb_spec ORIGIN_SYSTEM (Origin addon)) as [E|_];
      [now symmetry in E|].
    simpl.
    destruct (m_latestPrivateVersions st !! ID addon) as [remote|];
      [|reflexivity].
    destruct (vgt (Version remote) (Version addon) || disabled addon);
      reflexivity.
Qed.

(** C2: when the search finds [remote] for the installed record, the
    update [remote] is offered exactly when its version is greater than
    the installed one or the installed add-on is disabled for
    incompatibility, and otherwise the answer is "no update"; so an
    equal-version [remote] is returned for a disabled-incompatible
    installed record. *)
Theorem DoAddonUpdateCheck_offer_iff (st : Repos) (addon remote : Addon)
  (update : option Addon) :
  found_in_searched_map ORIGIN_SYSTEM st addon remote ->
  let result :=
    DoAddonUpdateCheck vgt ORIGIN_SYSTEM m_addonMgr st addon update in
  let disabled :=
    IsAddonDisabledWithReason m_addonMgr (ID addon) INCOMPATIBLE in
  (result = (true, Some remote) <->
   vgt (Version remote) (Version addon) = true \/ disabled = true) /\
  (result = (false, None) <->
   ~ (vgt (Version remote) (Version addon) = true \/ disabled = true)) /\
  (Version remote = Version addon -> disabled = true ->
   result = (true, Some remote)).
Proof.
  intros Hfound result disabled. subst result disabled.
  assert (check st addon update =
          if vgt (Version remote) (Version addon) || disabled addon
          then (true, Some remote) else (false, None)) as ->.
  { destruct Hfound as [Hoff | (Hsys & Hoff & Hpriv)].
    - now apply check_of_official_hit.
    - now apply check_of_private_hit. }
  rewrite <- orb_true_iff.
  destruct (vgt (Version remote) (Version addon) || disabled addon) eqn:E.
  - repeat split; try discriminate; auto. intros H. now destruct H.
  - repeat split; try discriminate; auto.
    intros _ Hd. rewrite Hd, orb_true_r in E. discriminate.
Qed.

(** C3: for an installed record of system origin the answer depends on
    the official map alone, and it is "no update" when the official map
    lacks the id, also when the private map holds a newer version. *)
Theorem DoAddonUpdateCheck_system_official_only (st : Repos)
  (addon : Addon) (update : option Addon) :
  Origin addon = ORIGIN_SYSTEM ->
  let result :=
    DoAddonUpdateCheck vgt ORIGIN_SYSTEM m_addonMgr st addon update in
  (forall st' update',
      m_latestOfficialVersions st' = m_latestOfficialVersions st ->
      DoAddonUpdateCheck vgt ORIGIN_SYSTEM m_addonMgr st' addon update'
      = result) /\
  (forall newer,
      m_latestOfficialVersions st !! ID addon = None ->
      m_latestPrivateVersions st !! ID addon = Some newer ->
      vgt (Version newer) (Version addon) = true ->
      result = (false, None)).
Proof.
  intros Hsys result. subst result. split.
  - intros st' update' Hsame.
    destruct (m_latestOfficialVersions st !! ID addon) as [remote|] eqn:E.
    + rewrite (check_of_official_hit st addon remote update E).
      apply check_of_official_hit. now rewrite Hsame.
    + rewrite (check_of_system_miss st addon update Hsys E).
      apply check_of_system_miss; [exact Hsys | now rewrite Hsame].
  - intros newer Hoff _ _. now apply check_of_system_miss.
Qed.

(** C10: the result is [true] exactly when the out-parameter holds an
    update on return; it is reset at entry, so its value at entry has no
    effect, and it is null whenever the result is [false]. *)
Theorem DoAddonUpdateCheck_result_matches_update (st : Repos)
  (addon : Addon) (update : option Addon) :
  let result :=
    DoAddonUpdateCheck vgt ORIGIN_SYSTEM m_addonMgr st addon update in
  (result.1 = true <-> is_Some result.2) /\
  (result.1 = false -> result.2 = None) /\
  result = DoAddonUpdateCheck vgt ORIGIN_SYSTEM m_addonMgr st addon None.
Proof.
  cbn zeta.
  unfold DoAddonUpdateCheck, FindAddonAndCheckForUpdate.
  destruct (String.eqb ORIGIN_SYSTEM (Origin addon));
    destruct (m_latestOfficialVersions st !! ID addon) as [remote|];
    try destruct (vgt (Version remote) (Version addon) || disabled addon);
    simpl;
    try destruct (m_latestPrivateVersions st !! ID addon) as [remote'|];
    try destruct (vgt (Version remote') (Version addon) || disabled addon);
    simpl; repeat split; try discriminate; eauto;
    intros H; try discriminate; now destruct H.
Qed.

(** *** Further properties of the classification and of the update check *)

(** The check has two outcomes: an update, or none with a null
    out-parameter. *)
Lemma check_outcomes (st : Repos) (addon : Addon) (update : option Addon) :
  (exists u, check st addon update = (true, Some u) /\
             found_in_searched_map ORIGIN_SYSTEM st addon u /\
             (vgt (Version u) (Version addon) = true \/
              disabled addon = true)) \/
  check st addon update = (false, None).
Proof.
  destruct (m_latestOfficialVersions st !! ID addon) as [remote|] eqn:Hoff.
  - rewrite (check_of_official_hit st addon remote update Hoff).
    destruct (vgt (Version remote) (Version addon) || disabled addon) eqn:E;
      [left | now right].
    exists remote. split; [reflexivity|]. split; [now left|].
    now apply orb_true_iff.
  - destruct (String.eqb_spec (Origin addon) ORIGIN_SYSTEM) as [Hsys|Hsys].
    + right. now apply check_of_system_miss.
    + destruct (m_latestPrivateVersions st !! ID addon) as [remote|]
        eqn:Hpriv.
      * rewrite (check_of_private_hit st addon remote update Hsys Hoff Hpriv).
        destruct (vgt (Version remote) (Version addon) || disabled addon)
          eqn:E; [left | now right].
        exists remote. split; [reflexivity|]. split.
        -- right. auto.
        -- now apply orb_true_iff.
      * right. unfold DoAddonUpdateCheck, FindAddonAndCheckForUpdate.
        rewrite Hoff, Hpriv.
        destruct (String.eqb ORIGIN_SYSTEM (Origin addon)); reflexivity.
Qed.

(** X1: [BuildUpdateList] appends to [updates], in the order of
    [installed], the update of each add-on that has one, and nothing for
    the others.  What [updates] held at entry stays in front, and the local
    [update] shared by the iterations carries nothing from one add-on to
    the next. *)
Theorem BuildUpdateList_appends_in_order (st : Repos)
  (installed : list Addon) (updates : list (option Addon)) :
  BuildUpdateList vgt ORIGIN_SYSTEM m_addonMgr st installed updates =
  updates
    ++ flat_map
         (fun addon =>
            let result :=
              DoAddonUpdateCheck vgt ORIGIN_SYSTEM m_addonMgr st addon None in
            if result.1 then [result.2] else [])
         installed.
Proof.
  unfold BuildUpdateList. generalize (@None Addon) as update.
  revert updates. induction installed as [|addon rest IH];
    intros updates update.
  - cbn. now rewrite app_nil_r.
  - cbn [BuildUpdateList_loop flat_map].
    change (check st addon update) with (check st addon None).
    destruct (check st addon None).1; rewrite IH.
    + now rewrite <- app_assoc.
    + reflexivity.
Qed.

(** X2: the entries [BuildUpdateList] adds come from installed add-ons
    taken in their order, at most one entry for each: every entry is the
    non-null record that the search finds for its add-on, newer than that
    add-on unless the add-on is disabled for incompatibility. *)
Theorem BuildUpdateList_adds_found_updates (st : Repos)
  (installed : list Addon) (updates : list (option Addon)) :
  exists offered : list (Addon * Addon),
    BuildUpdateList vgt ORIGIN_SYSTEM m_addonMgr st installed updates
    = updates ++ List.map (fun offer => Some offer.2) offered /\
    sublist (List.map fst offered) installed /\
    forall addon u, (addon, u) ∈ offered ->
      DoAddonUpdateCheck vgt ORIGIN_SYSTEM m_addonMgr st addon None
      = (true, Some u) /\
      found_in_searched_map ORIGIN_SYSTEM st addon u /\
      (vgt (Version u) (Version addon) = true \/
       IsAddonDisabledWithReason m_addonMgr (ID addon) INCOMPATIBLE = true).
Proof.
  unfold BuildUpdateList. generalize (@None Addon) as update.
  revert updates. induction installed as [|addon rest IH];
    intros updates update.
  - exists []. cbn. rewrite app_nil_r.
    split; [reflexivity|]. split; [apply sublist_nil|].
    intros addon u Hu. now apply elem_of_nil in Hu.
  - cbn [BuildUpdateList_loop].
    change (check st addon update) with (check st addon None).
    destruct (check_outcomes st addon None) as [(u & E & Hf & Hn) | E];
      rewrite E; cbn [fst snd].
    + destruct (IH (updates ++ [Some u]) (Some u)) as (offered & -> & Hs & Ha).
      exists ((addon, u) :: offered). split; [now rewrite <- app_assoc|].
      split; [cbn; now constructor|].
      intros addon' u' Hu'. apply elem_of_cons in Hu' as [Heq | Hu'].
      * injection Heq as -> ->. auto.
      * now apply Ha.
    + destruct (IH updates None) as (offered & -> & Hs & Ha).
      exists offered. split; [reflexivity|].
      split; [now constructor | exact Ha].
Qed.

(** X3: an update is offered only for a record the search finds, and that
    record is newer than the installed one unless the installed add-on is
    disabled for incompatibility; an id that neither map has gives "no
    update", whatever the origin. *)
Theorem DoAddonUpdateCheck_offers_only_found (st : Repos) (addon : Addon)
  (update : option Addon) :
  let result :=
    DoAddonUpdateCheck vgt ORIGIN_SYSTEM m_addonMgr st addon update in
  (forall u,
      result.2 = Some u ->
      result.1 = true /\
      found_in_searched_map ORIGIN_SYSTEM st addon u /\
      (vgt (Version u) (Version addon) = true \/
       IsAddonDisabledWithReason m_addonMgr (ID addon) INCOMPATIBLE = true))
  /\
  (m_latestOfficialVersions st !! ID addon = None ->
   m_latestPrivateVersions st !! ID addon = None ->
   result = (false, None)).
Proof.
  cbn zeta. split.
  - intros u Hu.
    destruct (check_outcomes st addon update) as [(u' & E & Hf & Hn) | E];
      rewrite E in Hu; cbn in Hu; [|discriminate].
    injection Hu as ->. rewrite E. auto.
  - intros Hoff Hpriv.
    destruct (check_outcomes st addon update)
      as [(u' & _ & [Hf | (_ & _ & Hf)] & _) | E]; [congruence.. | exact E].
Qed.

(** X4: a record that passes the path-checked test passes the lenient
    one; a record of system origin passes both; with an empty registry
    only the records of system origin pass. *)
Theorem IsFromOfficialRepo_strict_is_lenient (addon : Addon) :
  (IsFromOfficialRepo ORIGIN_SYSTEM officialRepoInfos addon true = true ->
   IsFromOfficialRepo ORIGIN_SYSTEM officialRepoInfos addon false = true) /\
  (Origin addon = ORIGIN_SYSTEM ->
   forall bCheckAddonPath,
     IsFromOfficialRepo ORIGIN_SYSTEM officialRepoInfos addon
       bCheckAddonPath = true) /\
  (forall bCheckAddonPath,
      IsFromOfficialRepo ORIGIN_SYSTEM [] addon bCheckAddonPath
      = String.eqb (Origin addon) ORIGIN_SYSTEM).
Proof.
  unfold IsFromOfficialRepo. split; [|split].
  - rewrite !orb_true_iff, !existsb_exists.
    intros [H | (r & Hin & Hr)]; [now left | right].
    exists r. split; [exact Hin|]. now apply andb_true_iff in Hr as [Hr _].
  - intros -> b. now rewrite String.eqb_refl.
  - intros b. cbn. apply orb_false_r.
Qed.

(** X5: the classification depends on the registry only through its set
    of entries: a registry with more entries accepts at least the same
    records, so neither the order of the entries nor repeated entries
    matter. *)
Theorem IsFromOfficialRepo_registry_monotone
  (infos1 infos2 : list RepoInfo) (addon : Addon) (bCheckAddonPath : bool) :
  (forall r, r ∈ infos1 -> r ∈ infos2) ->
  IsFromOfficialRepo ORIGIN_SYSTEM infos1 addon bCheckAddonPath = true ->
  IsFromOfficialRepo ORIGIN_SYSTEM infos2 addon bCheckAddonPath = true.
Proof.
  intros Hsub. unfold IsFromOfficialRepo.
  rewrite !orb_true_iff, !existsb_exists.
  intros [H | (r & Hin & Hr)]; [now left | right].
  exists r. split; [|exact Hr].
  apply list_elem_of_In, Hsub. now apply list_elem_of_In.
Qed.

End Resolver.

(** ** The latest-version indices *)

Section Index.

Variable CAddonVersion : Type.
Variable vgt : CAddonVersion -> CAddonVersion -> bool.
Variable ORIGIN_SYSTEM : string.
Variable officialRepoInfos : list RepoInfo.
Variable m_addonMgr : CAddonMgr CAddonVersion.

Local Abbreviation Addon := (IAddon CAddonVersion).
Local Abbreviation Repos := (CAddonRepos CAddonVersion).
Local Abbreviation Entries := (list (string * IAddon CAddonVersion)).
Local Abbreviation Index := (gmap string (IAddon CAddonVersion)).
Local Abbreviation strict :=
  (fun a : IAddon CAddonVersion =>
     IsFromOfficialRepo ORIGIN_SYSTEM officialRepoInfos a true).
Local Abbreviation add := (AddAddonIfLatest vgt).
Local Abbreviation latest := (latest_of vgt).
Local Abbreviation rebuild :=
  (SetupLatestVersionMaps vgt ORIGIN_SYSTEM officialRepoInfos).
Local Abbreviation load :=
  (LoadAddonsFromDatabase vgt ORIGIN_SYSTEM officialRepoInfos m_addonMgr).

(** *** One candidate-latest map *)

Lemma add_lookup_ne (a : Addon) (m : Index) (k : string) :
  k <> ID a -> add a m !! k = m !! k.
Proof.
  intros Hk. unfold AddAddonIfLatest.
  destruct (m !! ID a) as [s|]; [destruct (vgt _ _)|];
    try reflexivity; now rewrite lookup_insert_ne.
Qed.

Lemma add_lookup_eq (a : Addon) (m : Index) :
  add a m !! ID a =
  match m !! ID a with
  | None => Some a
  | Some s => if vgt (Version a) (Version s) then Some a else Some s
  end.
Proof.
  unfold AddAddonIfLatest.
  destruct (m !! ID a) as [s|] eqn:E; [destruct (vgt _ _)|];
    try (now rewrite lookup_insert_eq). exact E.
Qed.

Lemma latest_nil (sel : string * Addon -> bool) (m : Index) :
  latest sel [] m = m.
Proof. reflexivity. Qed.

Lemma latest_cons (sel : string * Addon -> bool) (e : string * Addon)
  (l : Entries) (m : Index) :
  latest sel (e :: l) m = latest sel l (if sel e then add e.2 m else m).
Proof. reflexivity. Qed.

Lemma latest_app (sel : string * Addon -> bool) (l1 l2 : Entries)
  (m : Index) :
  latest sel (l1 ++ l2) m = latest sel l2 (latest sel l1 m).
Proof. unfold latest_of. apply fold_left_app. Qed.

(** A key that is in the map stays in it. *)
Lemma latest_keeps_keys (sel : string * Addon -> bool) (l : Entries)
  (m : Index) (k : string) :
  is_Some (m !! k) -> is_Some (latest sel l m !! k).
Proof.
  revert m. induction l as [|e l IH]; intros m Hk; [exact Hk|].
  rewrite latest_cons. apply IH. destruct (sel e); [|exact Hk].
  destruct (decide (k = ID e.2)) as [->|Hne].
  - rewrite add_lookup_eq. destruct (m !! ID e.2) as [s|];
      [destruct (vgt _ _)|]; eauto.
  - now rewrite add_lookup_ne.
Qed.

(** Every selected record has its id in the map. *)
Lemma latest_covers (sel : string * Addon -> bool) (l : Entries)
  (m : Index) (e : string * Addon) :
  e ∈ l -> sel e = true -> is_Some (latest sel l m !! ID e.2).
Proof.
  revert m. induction l as [|e' l IH]; intros m Hin Hsel.
  - now apply elem_of_nil in Hin.
  - rewrite latest_cons. apply elem_of_cons in Hin as [<- | Hin].
    + apply latest_keeps_keys. rewrite Hsel, add_lookup_eq.
      destruct (m !! ID e.2) as [s|]; [destruct (vgt _ _)|]; eauto.
    + now apply IH.
Qed.

(** What the map holds was in it at the start or is a selected record,
    filed under its own id. *)
Lemma latest_holds_selected (sel : string * Addon -> bool) (l : Entries)
  (m : Index) (k : string) (s : Addon) :
  latest sel l m !! k = Some s ->
  m !! k = Some s \/
  exists e, e ∈ l /\ sel e = true /\ e.2 = s /\ ID s = k.
Proof.
  revert m. induction l as [|e l IH]; intros m H; [now left|].
  rewrite latest_cons in H. apply IH in H as [H | (e' & Hin & Hs & He)].
  - destruct (sel e) eqn:Hsel; [|now left].
    destruct (decide (k = ID e.2)) as [->|Hne].
    + rewrite add_lookup_eq in H.
      destruct (m !! ID e.2) as [s0|] eqn:E.
      * destruct (vgt (Version e.2) (Version s0)).
        -- injection H as <-. right. exists e.
           repeat split; auto. left.
        -- now left.
      * injection H as <-. right. exists e. repeat split; auto. left.
    + rewrite add_lookup_ne in H by exact Hne. now left.
  - right. exists e'. split; [now right | auto].
Qed.

(** *** The rebuild as three folds over the visited records *)

Local Abbreviation selO := (fun e : string * IAddon CAddonVersion => strict e.2).
Local Abbreviation selP :=
  (fun e : string * IAddon CAddonVersion => negb (strict e.2)).
Local Abbreviation selR :=
  (fun (r : string) (e : string * IAddon CAddonVersion) => String.eqb e.1 r).

Lemma repo_latest_add (r r' : string) (a : Addon)
  (M : gmap string (gmap string Addon)) :
  repo_latest (AddAddonIfLatestByRepo vgt r a M) r' =
  if String.eqb r r' then add a (repo_latest M r') else repo_latest M r'.
Proof.
  unfold AddAddonIfLatestByRepo, repo_latest, AddAddonIfLatest.
  destruct (String.eqb_spec r r') as [<-|Hne].
  - destruct (M !! r) as [inner|] eqn:E; simpl.
    + destruct (inner !! ID a) as [s|]; [destruct (vgt _ _)|];
        rewrite ?lookup_insert_eq, ?E; reflexivity.
    + now rewrite lookup_insert_eq, lookup_empty.
  - destruct (M !! r) as [inner|] eqn:E; simpl.
    + destruct (inner !! ID a) as [s|]; [destruct (vgt _ _)|];
        rewrite ?lookup_insert_ne by exact Hne; reflexivity.
    + now rewrite lookup_insert_ne.
Qed.

Lemma byRepo_key_add (r r' : string) (a : Addon)
  (M : gmap string (gmap string Addon)) :
  is_Some (AddAddonIfLatestByRepo vgt r a M !! r') <->
  r = r' \/ is_Some (M !! r').
Proof.
  unfold AddAddonIfLatestByRepo.
  destruct (decide (r = r')) as [<-|Hne].
  - split; [now left|intros _].
    destruct (M !! r) as [inner|] eqn:E.
    + destruct (inner !! ID a) as [s|]; [destruct (vgt _ _)|];
        rewrite ?lookup_insert_eq, ?E; eauto.
    + rewrite lookup_insert_eq. eauto.
  - assert (AddAddonIfLatestByRepo vgt r a M !! r' = M !! r') as Hsame.
    { unfold AddAddonIfLatestByRepo.
      destruct (M !! r) as [inner|].
      - destruct (inner !! ID a) as [s|]; [destruct (vgt _ _)|];
          rewrite ?lookup_insert_ne by exact Hne; reflexivity.
      - now rewrite lookup_insert_ne. }
    unfold AddAddonIfLatestByRepo in Hsame. rewrite Hsame.
    split; [now right | now intros [?|?]].
Qed.

(** The state the rebuild reaches from [st] after the records [mm] of
    the repository [r]. *)
Lemma rebuild_repo_fold (r : string) (mm : Entries) (st : Repos) :
  let st' :=
    fold_left
      (SetupLatestVersionMaps_entry vgt ORIGIN_SYSTEM officialRepoInfos r)
      mm st in
  let es := List.map (fun e : string * Addon => (r, e.2)) mm in
  m_latestOfficialVersions st' = latest selO es (m_latestOfficialVersions st)
  /\ m_latestPrivateVersions st'
     = latest selP es (m_latestPrivateVersions st)
  /\ (forall r', repo_latest (m_latestVersionsByRepo st') r'
                 = latest (selR r') es
                     (repo_latest (m_latestVersionsByRepo st) r'))
  /\ (forall r', is_Some (m_latestVersionsByRepo st' !! r') <->
                 is_Some (m_latestVersionsByRepo st !! r') \/
                 exists e, e ∈ es /\ e.1 = r')
  /\ m_addonsByRepoMap st' = m_addonsByRepoMap st
  /\ m_allAddons st' = m_allAddons st.
Proof.
  revert st. induction mm as [|e mm IH]; intros st; simpl.
  - repeat split; auto. intros [H | (e & He & _)]; [exact H|].
    now apply elem_of_nil in He.
  - destruct (IH (SetupLatestVersionMaps_entry vgt ORIGIN_SYSTEM
                    officialRepoInfos r st e))
      as (HO & HP & HR & HK & HB & HA).
    rewrite HO, HP, HB, HA. clear HO HP HB HA IH.
    split; [|split; [|split; [|split; [|split]]]].
    + f_equal. unfold SetupLatestVersionMaps_entry. simpl.
      now destruct (strict e.2).
    + f_equal. unfold SetupLatestVersionMaps_entry. simpl.
      now destruct (strict e.2).
    + intros r'. rewrite HR. f_equal.
      unfold SetupLatestVersionMaps_entry. simpl.
      destruct (strict e.2); simpl; now rewrite repo_latest_add.
    + intros r'. rewrite HK.
      assert (is_Some
                (m_latestVersionsByRepo
                   (SetupLatestVersionMaps_entry vgt ORIGIN_SYSTEM
                      officialRepoInfos r st e) !! r') <->
              r = r' \/ is_Some (m_latestVersionsByRepo st !! r')) as ->.
      { unfold SetupLatestVersionMaps_entry.
        destruct (strict e.2); simpl; apply byRepo_key_add. }
      split.
      * intros [[Hr | Hs] | (e' & He' & Hr)].
        -- right. exists (r, e.2). split; [left | exact Hr].
        -- now left.
        -- right. exists e'. split; [now right | exact Hr].
      * intros [Hs | (e' & He' & Hr)]; [left; now right|].
        apply elem_of_cons in He' as [-> | He'].
        -- left. now left.
        -- right. eauto.
    + unfold SetupLatestVersionMaps_entry. now destruct (strict e.2).
    + unfold SetupLatestVersionMaps_entry. now destruct (strict e.2).
Qed.

(** The same for the whole walk over [byRepo]. *)
Lemma rebuild_fold (byRepo : list (string * Entries)) (st : Repos) :
  let st' :=
    fold_left
      (SetupLatestVersionMaps_repo vgt ORIGIN_SYSTEM officialRepoInfos)
      byRepo st in
  let es := byRepo_entries byRepo in
  m_latestOfficialVersions st' = latest selO es (m_latestOfficialVersions st)
  /\ m_latestPrivateVersions st'
     = latest selP es (m_latestPrivateVersions st)
  /\ (forall r', repo_latest (m_latestVersionsByRepo st') r'
                 = latest (selR r') es
                     (repo_latest (m_latestVersionsByRepo st) r'))
  /\ (forall r', is_Some (m_latestVersionsByRepo st' !! r') <->
                 is_Some (m_latestVersionsByRepo st !! r') \/
                 exists e, e ∈ es /\ e.1 = r')
  /\ m_addonsByRepoMap st' = m_addonsByRepoMap st
  /\ m_allAddons st' = m_allAddons st.
Proof.
  revert st. induction byRepo as [|repo byRepo IH]; intros st; simpl.
  - repeat split; auto. intros [H | (e & He & _)]; [exact H|].
    now apply elem_of_nil in He.
  - destruct (IH (SetupLatestVersionMaps_repo vgt ORIGIN_SYSTEM
                    officialRepoInfos st repo))
      as (HO & HP & HR & HK & HB & HA).
    destruct (rebuild_repo_fold repo.1 repo.2 st)
      as (HO' & HP' & HR' & HK' & HB' & HA').
    unfold SetupLatestVersionMaps_repo in *.
    rewrite HO, HP, HB, HA, HO', HP', HB', HA'.
    rewrite !latest_app.
    repeat split; auto.
    + intros r'. now rewrite HR, HR', latest_app.
    + rewrite HK, HK'. intros [[Hs | (e & He & Hr)] | (e & He & Hr)].
      * now left.
      * right. exists e. split; [|exact Hr]. apply elem_of_app. now left.
      * right. exists e. split; [|exact Hr]. apply elem_of_app. now right.
    + rewrite HK, HK'. intros [Hs | (e & He & Hr)]; [left; now left|].
      apply elem_of_app in He as [He | He]; [left; right | right]; eauto.
Qed.

(** [SetupLatestVersionMaps] in terms of the records it visits. *)
Lemma rebuild_spec (st : Repos) :
  let es := byRepo_entries (m_addonsByRepoMap st) in
  m_latestOfficialVersions (rebuild st) = latest selO es ∅
  /\ m_latestPrivateVersions (rebuild st) = latest selP es ∅
  /\ (forall r', repo_latest (m_latestVersionsByRepo (rebuild st)) r'
                 = latest (selR r') es ∅)
  /\ (forall r', is_Some (m_latestVersionsByRepo (rebuild st) !! r') <->
                 exists e, e ∈ es /\ e.1 = r')
  /\ m_addonsByRepoMap (rebuild st) = m_addonsByRepoMap st
  /\ m_allAddons (rebuild st) = m_allAddons st.
Proof.
  unfold SetupLatestVersionMaps.
  destruct (rebuild_fold (m_addonsByRepoMap st)
              (mkAddonRepos (m_allAddons st) ∅ ∅ ∅ (m_addonsByRepoMap st)))
    as (HO & HP & HR & HK & HB & HA).
  simpl in *. repeat split; auto.
  - rewrite HK, lookup_empty. intros [H | H]; [|exact H].
    now destruct H.
  - intros H. apply HK. now right.
Qed.

(** *** The grouping of the loader *)

Lemma multimap_insert_perm {V : Type} (k : string) (v : V)
  (m : list (string * V)) :
  multimap_insert k v m ≡ₚ (k, v) :: m.
Proof.
  induction m as [|[k' v'] m IH]; simpl; [reflexivity|].
  destruct (String.ltb k k'); [reflexivity|].
  rewrite IH. apply perm_swap.
Qed.

Lemma byRepo_entries_cons (repo : string * Entries)
  (byRepo : list (string * Entries)) :
  byRepo_entries (repo :: byRepo) =
  List.map (fun e : string * Addon => (repo.1, e.2)) repo.2
    ++ byRepo_entries byRepo.
Proof. reflexivity. Qed.

Lemma byRepo_entries_insert (k id : string) (a : Addon)
  (byRepo : list (string * Entries)) :
  byRepo_entries (map_at_insert k id a byRepo) ≡ₚ
  (k, a) :: byRepo_entries byRepo.
Proof.
  induction byRepo as [|[k' mm] byRepo IH]; [reflexivity|].
  cbn [map_at_insert]. destruct (String.compare k k') eqn:E.
  - apply String.compare_eq_iff in E as <-.
    rewrite !byRepo_entries_cons. cbn [fst snd].
    now rewrite (multimap_insert_perm id a mm).
  - reflexivity.
  - rewrite !byRepo_entries_cons. cbn [fst snd]. rewrite IH.
    symmetry. apply Permutation_middle.
Qed.

Lemma byRepo_records_cons (r i : string) (repo : string * Entries)
  (byRepo : list (string * Entries)) :
  byRepo_records r i (repo :: byRepo) =
  (if String.eqb repo.1 r
   then List.map snd
          (List.filter (fun e : string * Addon => String.eqb e.1 i) repo.2)
   else [])
    ++ byRepo_records r i byRepo.
Proof. reflexivity. Qed.

(** The visited records after the grouping loop: those already grouped
    and every compatible fetched record, under its origin. *)
Lemma group_entries (allAddons : list Addon)
  (byRepo : list (string * Entries)) :
  byRepo_entries
    (fold_left (LoadAddonsFromDatabase_group m_addonMgr) allAddons byRepo)
  ≡ₚ
  byRepo_entries byRepo
    ++ List.map (fun a : Addon => (Origin a, a))
         (List.filter (IsCompatible m_addonMgr) allAddons).
Proof.
  revert byRepo. induction allAddons as [|a l IH]; intros byRepo.
  - cbn. now rewrite app_nil_r.
  - cbn [fold_left List.filter]. rewrite IH.
    unfold LoadAddonsFromDatabase_group.
    destruct (IsCompatible m_addonMgr a); [|reflexivity].
    rewrite byRepo_entries_insert. cbn [List.map].
    apply Permutation_middle.
Qed.

Lemma byRepo_records_none (r i : string) (byRepo : list (string * Entries)) :
  Forall (fun repo => repo.1 <> r) byRepo -> byRepo_records r i byRepo = [].
Proof.
  induction 1 as [|[k mm] m Hk _ IH]; [reflexivity|].
  rewrite byRepo_records_cons. cbn in *.
  destruct (String.eqb_spec k r); [contradiction | exact IH].
Qed.

(** In a well-formed container the new record comes last among those of
    its repository and id. *)
Lemma byRepo_records_insert (r i k id : string) (a : Addon)
  (byRepo : list (string * Entries)) :
  byRepo_sorted byRepo ->
  byRepo_records r i (map_at_insert k id a byRepo) =
  byRepo_records r i byRepo
    ++ (if String.eqb k r && String.eqb id i then [a] else []).
Proof.
  unfold byRepo_sorted, map_sorted.
  induction byRepo as [|[k' mm] m IH]; intros [Hs Hin].
  - cbn. destruct (String.eqb k r); [|reflexivity].
    cbn. now destruct (String.eqb id i).
  - inversion Hs as [|? ? Hm Hall]; subst.
    inversion Hin as [|? ? Hmm Hrest]; subst. cbn in Hmm.
    assert (forall x, key_lt x k' \/ x = k' -> byRepo_records x i m = [])
      as Hnone.
    { intros x Hx. apply byRepo_records_none.
      eapply Forall_impl; [exact Hall|]. intros [k2 m2] H2 Heq.
      cbn in H2, Heq. subst k2. destruct Hx as [Hx | ->].
      - exact (key_lt_irrefl _ (key_lt_trans _ _ _ Hx H2)).
      - exact (key_lt_irrefl _ H2). }
    cbn [map_at_insert]. destruct (String.compare k k') eqn:E.
    + apply String.compare_eq_iff in E as <-.
      rewrite !byRepo_records_cons. cbn [fst snd].
      destruct (String.eqb_spec k r) as [->|Hne];
        [|now rewrite app_nil_r].
      rewrite multimap_insert_equal_range by exact Hmm.
      rewrite (Hnone r) by now right.
      rewrite map_app, !app_nil_r. cbn [andb].
      now destruct (String.eqb id i).
    + rewrite (byRepo_records_cons r i (k, multimap_insert id a [])).
      cbn [fst snd multimap_insert].
      destruct (String.eqb_spec k r) as [->|Hne];
        [|now rewrite app_nil_r].
      assert (byRepo_records r i ((k', mm) :: m) = []) as ->.
      { rewrite byRepo_records_cons. cbn [fst snd].
        rewrite (Hnone r) by now left.
        destruct (String.eqb_spec k' r) as [->|_]; [|reflexivity].
        now apply key_lt_irrefl in E. }
      cbn. now destruct (String.eqb id i).
    + rewrite !byRepo_records_cons. cbn [fst snd].
      rewrite (IH (conj Hm Hrest)). now rewrite app_assoc.
Qed.

Lemma group_sorted (allAddons : list Addon)
  (byRepo : list (string * Entries)) :
  byRepo_sorted byRepo ->
  byRepo_sorted
    (fold_left (LoadAddonsFromDatabase_group m_addonMgr) allAddons byRepo).
Proof.
  revert byRepo. induction allAddons as [|a l IH]; intros byRepo Hs;
    [exact Hs|].
  cbn [fold_left]. apply IH. unfold LoadAddonsFromDatabase_group.
  destruct (IsCompatible m_addonMgr a); [|exact Hs].
  now apply map_at_insert_sorted.
Qed.

(** The grouping loop appends, under each repository and id, the
    compatible records of that origin and id in the order fetched. *)
Lemma group_records (r i : string) (allAddons : list Addon)
  (byRepo : list (string * Entries)) :
  byRepo_sorted byRepo ->
  byRepo_records r i
    (fold_left (LoadAddonsFromDatabase_group m_addonMgr) allAddons byRepo)
  =
  byRepo_records r i byRepo
    ++ List.filter
         (fun a : Addon =>
            IsCompatible m_addonMgr a
            && (String.eqb (Origin a) r && String.eqb (ID a) i))
         allAddons.
Proof.
  revert byRepo. induction allAddons as [|a l IH]; intros byRepo Hs.
  - cbn. now rewrite app_nil_r.
  - cbn [fold_left List.filter]. rewrite IH.
    + unfold LoadAddonsFromDatabase_group.
      destruct (IsCompatible m_addonMgr a); cbn [andb]; [|reflexivity].
      rewrite byRepo_records_insert by exact Hs.
      destruct (String.eqb (Origin a) r && String.eqb (ID a) i);
        [|now rewrite app_nil_r].
      now rewrite <- app_assoc.
    + unfold LoadAddonsFromDatabase_group.
      destruct (IsCompatible m_addonMgr a); [|exact Hs].
      now apply map_at_insert_sorted.
Qed.

Lemma load_unfold (database : CAddonDatabase CAddonVersion)
  (addonId : string) (st : Repos) :
  load database addonId st =
  rebuild
    (mkAddonRepos (fetched database addonId)
       (m_latestOfficialVersions st) (m_latestPrivateVersions st)
       (m_latestVersionsByRepo st)
       (fold_left (LoadAddonsFromDatabase_group m_addonMgr)
          (fetched database addonId) [])).
Proof. reflexivity. Qed.

Lemma load_byRepo (database : CAddonDatabase CAddonVersion)
  (addonId : string) (st : Repos) :
  m_addonsByRepoMap (load database addonId st) =
  fold_left (LoadAddonsFromDatabase_group m_addonMgr)
    (fetched database addonId) [].
Proof.
  rewrite load_unfold.
  now destruct (rebuild_spec
                  (mkAddonRepos (fetched database addonId)
                     (m_latestOfficialVersions st)
                     (m_latestPrivateVersions st)
                     (m_latestVersionsByRepo st)
                     (fold_left (LoadAddonsFromDatabase_group m_addonMgr)
                        (fetched database addonId) [])))
    as (_ & _ & _ & _ & -> & _).
Qed.

(** The records a load visits in its rebuild are the compatible fetched
    records, each under its origin. *)
Lemma load_entries (database : CAddonDatabase CAddonVersion)
  (addonId : string) (st : Repos) (e : string * Addon) :
  e ∈ byRepo_entries (m_addonsByRepoMap (load database addonId st)) <->
  exists a, a ∈ fetched database addonId /\
            IsCompatible m_addonMgr a = true /\ e = (Origin a, a).
Proof.
  rewrite load_byRepo, group_entries. cbn [byRepo_entries flat_map app].
  rewrite list_elem_of_In, in_map_iff. split.
  - intros (a & <- & Ha). apply filter_In in Ha as [Ha Hc].
    exists a. now rewrite list_elem_of_In.
  - intros (a & Ha & Hc & ->). exists a. split; [reflexivity|].
    apply filter_In. now rewrite <- list_elem_of_In.
Qed.

(** The three maps after a load, in terms of the records it visits. *)
Lemma load_spec (database : CAddonDatabase CAddonVersion)
  (addonId : string) (st : Repos) :
  let es :=
    byRepo_entries (m_addonsByRepoMap (load database addonId st)) in
  m_latestOfficialVersions (load database addonId st) = latest selO es ∅
  /\ m_latestPrivateVersions (load database addonId st)
     = latest selP es ∅
  /\ (forall r',
        repo_latest (m_latestVersionsByRepo (load database addonId st)) r'
        = latest (selR r') es ∅)
  /\ (forall r',
        is_Some (m_latestVersionsByRepo (load database addonId st) !! r')
        <-> exists e, e ∈ es /\ e.1 = r').
Proof.
  cbn zeta. rewrite load_byRepo, load_unfold.
  match goal with
  | |- context [rebuild ?s0] =>
      destruct (rebuild_spec s0) as (HO & HP & HR & HK & _)
  end.
  cbn [m_addonsByRepoMap] in *. auto.
Qed.

(** *** Claims on the grouping and on the classification *)

(** C8, as the code has it: after every load, [m_addonsByRepoMap] is in
    key order and holds under a repository and an id every compatible
    fetched record of that origin and id, in the order fetched; records
    that share the repository and the id are all kept. *)
Theorem LoadAddonsFromDatabase_keeps_every_record
  (database : CAddonDatabase CAddonVersion) (addonId : string)
  (st : Repos) (repoId id : string) :
  let st' :=
    LoadAddonsFromDatabase vgt ORIGIN_SYSTEM officialRepoInfos m_addonMgr
      database addonId st in
  byRepo_sorted (m_addonsByRepoMap st') /\
  byRepo_records repoId id (m_addonsByRepoMap st')
  =
  List.filter
    (fun a : Addon =>
       IsCompatible m_addonMgr a
       && (String.eqb (Origin a) repoId && String.eqb (ID a) id))
    (fetched database addonId).
Proof.
  cbn zeta. rewrite load_byRepo.
  assert (byRepo_sorted ([] : list (string * Entries))) as Hnil
      by (split; constructor).
  split; [now apply group_sorted|].
  now rewrite group_records.
Qed.

(** C7: each step of the rebuild offers its record to exactly one of the
    two candidate-latest maps, the official one when the path-checked
    predicate holds of the record and the private one otherwise, and
    leaves the other map as it was.  So after a rebuild the official map
    holds only visited records the predicate accepts, the private map
    only visited records it rejects, and the id of every visited record
    is in the map of its class. *)
Theorem SetupLatestVersionMaps_partition (st : Repos) :
  let official (a : Addon) : bool :=
    IsFromOfficialRepo ORIGIN_SYSTEM officialRepoInfos a true in
  let st' := SetupLatestVersionMaps vgt ORIGIN_SYSTEM officialRepoInfos st in
  let visited := byRepo_entries (m_addonsByRepoMap st) in
  (forall (repo_first : string) (st0 : Repos) (entry : string * Addon),
      let st1 :=
        SetupLatestVersionMaps_entry vgt ORIGIN_SYSTEM officialRepoInfos
          repo_first st0 entry in
      if official entry.2
      then m_latestOfficialVersions st1
           = AddAddonIfLatest vgt entry.2 (m_latestOfficialVersions st0) /\
           m_latestPrivateVersions st1 = m_latestPrivateVersions st0
      else m_latestPrivateVersions st1
           = AddAddonIfLatest vgt entry.2 (m_latestPrivateVersions st0) /\
           m_latestOfficialVersions st1 = m_latestOfficialVersions st0) /\
  (forall k s,
      m_latestOfficialVersions st' !! k = Some s ->
      official s = true /\ ID s = k /\ exists repo, (repo, s) ∈ visited) /\
  (forall k s,
      m_latestPrivateVersions st' !! k = Some s ->
      official s = false /\ ID s = k /\ exists repo, (repo, s) ∈ visited) /\
  (forall repo a,
      (repo, a) ∈ visited ->
      if official a
      then is_Some (m_latestOfficialVersions st' !! ID a)
      else is_Some (m_latestPrivateVersions st' !! ID a)).
Proof.
  cbn zeta.
  destruct (rebuild_spec st) as (HO & HP & _).
  split; [|split; [|split]].
  - intros repo_first st0 entry. unfold SetupLatestVersionMaps_entry.
    cbn zeta. destruct (strict entry.2); split; reflexivity.
  - intros k s Hs. rewrite HO in Hs.
    apply latest_holds_selected in Hs
      as [Hs | ([repo a] & Hin & Hsel & Ha & Hk)];
      [now rewrite lookup_empty in Hs|].
    cbn in Ha, Hsel. subst a. eauto.
  - intros k s Hs. rewrite HP in Hs.
    apply latest_holds_selected in Hs
      as [Hs | ([repo a] & Hin & Hsel & Ha & Hk)];
      [now rewrite lookup_empty in Hs|].
    cbn in Ha, Hsel. subst a. apply negb_true_iff in Hsel. eauto.
  - intros repo a Hin. destruct (strict a) eqn:E.
    + rewrite HO. apply (latest_covers selO _ ∅ (repo, a) Hin). exact E.
    + rewrite HP. apply (latest_covers selP _ ∅ (repo, a) Hin).
      cbn. now rewrite E.
Qed.

(** *** The grouping under a permutation of the fetched records *)

Lemma compare_cases (a b : string) :
  (a = b /\ String.compare a b = Eq /\ String.compare b a = Eq) \/
  (key_lt a b /\ String.compare a b = Lt /\ String.compare b a = Gt) \/
  (key_lt b a /\ String.compare a b = Gt /\ String.compare b a = Lt).
Proof.
  pose proof (String.compare_antisym a b) as Hanti.
  destruct (String.compare a b) eqn:E.
  - left. apply String.compare_eq_iff in E as <-.
    destruct (String.compare a a) eqn:E'; cbn in Hanti; auto; discriminate.
  - right. left. unfold key_lt.
    destruct (String.compare b a); cbn in Hanti; auto; discriminate.
  - right. right. unfold key_lt.
    destruct (String.compare b a); cbn in Hanti; auto; discriminate.
Qed.

Lemma key_lt_absurd (a b : string) : key_lt a b -> key_lt b a -> False.
Proof. intros H1 H2. exact (key_lt_irrefl _ (key_lt_trans _ _ _ H1 H2)). Qed.

Lemma key_lt_cycle (a b c : string) :
  key_lt a b -> key_lt b c -> key_lt c a -> False.
Proof. intros H1 H2 H3. exact (key_lt_absurd _ _ (key_lt_trans _ _ _ H1 H2) H3). Qed.

Lemma byRepo_same_groups_refl {V : Type}
  (c : list (string * list (string * V))) :
  byRepo_same_groups c c.
Proof. induction c; constructor; auto. Qed.

Lemma byRepo_same_groups_trans {V : Type}
  (c1 c2 c3 : list (string * list (string * V))) :
  byRepo_same_groups c1 c2 -> byRepo_same_groups c2 c3 ->
  byRepo_same_groups c1 c3.
Proof.
  intros H12. revert c3. induction H12 as [|p q c1 c2 [Hk Hp] _ IH];
    intros c3 H23; inversion H23 as [|? r ? c3' [Hk' Hp'] Hrest]; subst.
  - constructor.
  - constructor; [|now apply IH].
    split; [congruence | now rewrite Hp].
Qed.

(** Inserting the same record into two such containers keeps them so. *)
Lemma map_at_insert_same_groups {V : Type} (k id : string) (v : V)
  (c1 c2 : list (string * list (string * V))) :
  byRepo_same_groups c1 c2 ->
  byRepo_same_groups (map_at_insert k id v c1) (map_at_insert k id v c2).
Proof.
  induction 1 as [|[k1 m1] [k2 m2] c1 c2 [Hk Hp] Hrest IH];
    cbn [map_at_insert].
  - apply byRepo_same_groups_refl.
  - cbn in Hk, Hp. subst k2. destruct (String.compare k k1).
    + constructor; [|exact Hrest]. split; [reflexivity|]. cbn [fst snd].
      rewrite !multimap_insert_perm. cbn. now constructor.
    + constructor; [split; reflexivity|]. constructor; [|exact Hrest].
      now split.
    + constructor; [now split | exact IH].
Qed.

(** The order of two insertions changes at most the order of the records
    of one repository. *)
Lemma map_at_insert_swap {V : Type} (kx ix ky iy : string) (x y : V)
  (c : list (string * list (string * V))) :
  byRepo_same_groups
    (map_at_insert kx ix x (map_at_insert ky iy y c))
    (map_at_insert ky iy y (map_at_insert kx ix x c)).
Proof.
  assert (forall m : list (string * V),
             List.map snd (multimap_insert ix x (multimap_insert iy y m))
             ≡ₚ List.map snd (multimap_insert iy y (multimap_insert ix x m)))
    as Hinner.
  { intros m. transitivity (x :: y :: List.map snd m).
    - rewrite (multimap_insert_perm ix x (multimap_insert iy y m)).
      cbn [List.map snd]. now rewrite (multimap_insert_perm iy y m).
    - rewrite (multimap_insert_perm iy y (multimap_insert ix x m)).
      cbn [List.map snd]. rewrite (multimap_insert_perm ix x m).
      apply perm_swap. }
  induction c as [|[k' mm] c IH]; cbn [map_at_insert].
  - destruct (compare_cases kx ky)
      as [(-> & E1 & E2) | [(L & E1 & E2) | (L & E1 & E2)]];
      rewrite ?E1, ?E2; cbn [map_at_insert]; rewrite ?E1, ?E2.
    + constructor; [|constructor]. split; [reflexivity | apply Hinner].
    + apply byRepo_same_groups_refl.
    + apply byRepo_same_groups_refl.
  - destruct (compare_cases kx k')
      as [(-> & Ex & Ex') | [(Lx & Ex & Ex') | (Lx & Ex & Ex')]];
      destruct (compare_cases ky k')
        as [(-> & Ey & Ey') | [(Ly & Ey & Ey') | (Ly & Ey & Ey')]];
      rewrite ?Ex, ?Ey; cbn [map_at_insert]; rewrite ?Ex, ?Ey, ?Ex', ?Ey';
      try (destruct (compare_cases kx ky)
            as [(-> & E1 & E2) | [(L & E1 & E2) | (L & E1 & E2)]];
           rewrite ?E1, ?E2; cbn [map_at_insert];
           rewrite ?E1, ?E2, ?Ex, ?Ey, ?Ex', ?Ey');
      try solve [exfalso;
                 eauto using key_lt_irrefl, key_lt_absurd, key_lt_cycle];
      try apply byRepo_same_groups_refl;
      try (constructor; [split; [reflexivity | apply Hinner] |
                         apply byRepo_same_groups_refl]);
      try (constructor; [split; reflexivity | exact IH]).
Qed.

Lemma group_same_groups_acc (allAddons : list Addon)
  (c1 c2 : list (string * Entries)) :
  byRepo_same_groups c1 c2 ->
  byRepo_same_groups
    (fold_left (LoadAddonsFromDatabase_group m_addonMgr) allAddons c1)
    (fold_left (LoadAddonsFromDatabase_group m_addonMgr) allAddons c2).
Proof.
  revert c1 c2. induction allAddons as [|a l IH]; intros c1 c2 H; [exact H|].
  cbn [fold_left]. apply IH. unfold LoadAddonsFromDatabase_group.
  destruct (IsCompatible m_addonMgr a); [|exact H].
  now apply map_at_insert_same_groups.
Qed.

(** Fetching the records in another order changes neither the
    repositories of [m_addonsByRepoMap] nor the records under each of
    them, only their order within a repository. *)
Lemma group_same_groups (l1 l2 : list Addon) :
  l1 ≡ₚ l2 ->
  forall c1 c2 : list (string * Entries),
    byRepo_same_groups c1 c2 ->
    byRepo_same_groups
      (fold_left (LoadAddonsFromDatabase_group m_addonMgr) l1 c1)
      (fold_left (LoadAddonsFromDatabase_group m_addonMgr) l2 c2).
Proof.
  induction 1 as [|a l1 l2 _ IH|a b l|l1 l2 l3 _ IH1 _ IH2]; intros c1 c2 H.
  - exact H.
  - cbn [fold_left]. apply IH. unfold LoadAddonsFromDatabase_group.
    destruct (IsCompatible m_addonMgr a); [|exact H].
    now apply map_at_insert_same_groups.
  - cbn [fold_left]. apply group_same_groups_acc.
    unfold LoadAddonsFromDatabase_group.
    destruct (IsCompatible m_addonMgr a), (IsCompatible m_addonMgr b);
      try exact H; try now apply map_at_insert_same_groups.
    eapply byRepo_same_groups_trans; [apply map_at_insert_swap|].
    now do 2 apply map_at_insert_same_groups.
  - eapply byRepo_same_groups_trans; [apply IH1, H|].
    apply IH2, byRepo_same_groups_refl.
Qed.

(** A left fold gives the same result on a permutation of its list when
    the steps for any two elements of the list commute. *)
Lemma fold_left_permutation {A B : Type} (f : B -> A -> B) (l1 l2 : list A) :
  l1 ≡ₚ l2 ->
  (forall x y, x ∈ l1 -> y ∈ l1 -> forall b, f (f b x) y = f (f b y) x) ->
  forall b, fold_left f l1 b = fold_left f l2 b.
Proof.
  induction 1 as [|a l1 l2 _ IH|a c l|l1 l2 l3 H12 IH1 _ IH2];
    intros Hc b.
  - reflexivity.
  - cbn. apply IH. intros x y Hx Hy. apply Hc; now right.
  - cbn. f_equal. apply Hc; [left | right; left].
  - rewrite IH1 by exact Hc. apply IH2.
    intros x y Hx Hy. apply Hc; now rewrite H12.
Qed.

(** Over two containers with the same repositories and the same records
    under each, the walk of the rebuild leaves the same candidate-latest
    map when the steps for any two records of one repository commute. *)
Lemma latest_same_groups (sel : string * Addon -> bool)
  (c1 c2 : list (string * Entries)) :
  byRepo_same_groups c1 c2 ->
  (forall e1 e2,
      e1 ∈ byRepo_entries c1 -> e2 ∈ byRepo_entries c1 -> e1.1 = e2.1 ->
      forall m : Index,
        (if sel e2 then add e2.2 (if sel e1 then add e1.2 m else m)
         else (if sel e1 then add e1.2 m else m))
        = (if sel e1 then add e1.2 (if sel e2 then add e2.2 m else m)
           else (if sel e2 then add e2.2 m else m))) ->
  forall m : Index,
    latest sel (byRepo_entries c1) m = latest sel (byRepo_entries c2) m.
Proof.
  induction 1 as [|[k1 m1] [k2 m2] c1 c2 [Hk Hp] _ IH]; intros Hc m;
    [reflexivity|].
  cbn in Hk, Hp. subst k2. rewrite !byRepo_entries_cons, !latest_app.
  cbn [fst snd].
  assert (List.map (fun e : string * Addon => (k1, e.2)) m1
          ≡ₚ List.map (fun e : string * Addon => (k1, e.2)) m2) as Hblock.
  { rewrite <- (map_map snd (fun a : Addon => (k1, a)) m1).
    rewrite <- (map_map snd (fun a : Addon => (k1, a)) m2).
    now apply Permutation_map. }
  rewrite IH.
  - f_equal. unfold latest_of. apply fold_left_permutation; [exact Hblock|].
    intros e1 e2 H1 H2 b. apply Hc.
    + rewrite byRepo_entries_cons. apply elem_of_app. now left.
    + rewrite byRepo_entries_cons. apply elem_of_app. now left.
    + apply list_elem_of_In, in_map_iff in H1 as (x1 & <- & _).
      apply list_elem_of_In, in_map_iff in H2 as (x2 & <- & _).
      reflexivity.
  - intros e1 e2 H1 H2. apply Hc; rewrite byRepo_entries_cons;
      apply elem_of_app; now right.
Qed.

(** The walk of the rebuild visits the repositories in the order of their
    ids. *)
Lemma byRepo_entries_sorted (byRepo : list (string * Entries)) :
  byRepo_sorted byRepo ->
  StronglySorted (fun x y : string * Addon => ~ key_lt y.1 x.1)
    (byRepo_entries byRepo).
Proof.
  unfold byRepo_sorted, map_sorted. intros [Hs _].
  induction Hs as [|[r mm] c Hc IH Hall]; [constructor|].
  rewrite byRepo_entries_cons. cbn [fst snd].
  apply StronglySorted_app_2.
  - intros x1 x2 H1 H2.
    apply list_elem_of_In, in_map_iff in H1 as (e & <- & _). cbn.
    unfold byRepo_entries in H2.
    apply list_elem_of_In, in_flat_map in H2 as ([r' mm'] & Hin & H2).
    apply in_map_iff in H2 as (e' & <- & _). cbn.
    rewrite Forall_forall in Hall.
    apply list_elem_of_In, Hall in Hin. cbn in Hin.
    intros H. exact (key_lt_absurd _ _ Hin H).
  - clear. induction mm as [|e mm IH]; cbn; constructor; [exact IH|].
    apply Forall_forall. intros x Hx.
    apply list_elem_of_In, in_map_iff in Hx as (e' & <- & _). cbn.
    apply key_lt_irrefl.
  - exact IH.
Qed.

(** *** Further properties of the rebuild and of the loader *)

(** Two per-repository maps with the same keys and the same map under each
    key are equal. *)
Lemma byRepo_latest_ext (M1 M2 : gmap string (gmap string Addon)) :
  (forall r, is_Some (M1 !! r) <-> is_Some (M2 !! r)) ->
  (forall r, repo_latest M1 r = repo_latest M2 r) ->
  M1 = M2.
Proof.
  intros Hkey Hval. apply map_eq. intros r.
  specialize (Hkey r). specialize (Hval r). unfold repo_latest in Hval.
  destruct (M1 !! r) as [i1|], (M2 !! r) as [i2|]; cbn in Hval.
  - now rewrite Hval.
  - destruct Hkey as [Hkey _]. destruct Hkey; eauto. discriminate.
  - destruct Hkey as [_ Hkey]. destruct Hkey; eauto. discriminate.
  - reflexivity.
Qed.

(** The maps a rebuild leaves depend on [m_addonsByRepoMap] alone. *)
Lemma rebuild_maps_of_byRepo (st1 st2 : Repos) :
  m_addonsByRepoMap st1 = m_addonsByRepoMap st2 ->
  m_latestOfficialVersions (rebuild st1)
  = m_latestOfficialVersions (rebuild st2) /\
  m_latestPrivateVersions (rebuild st1)
  = m_latestPrivateVersions (rebuild st2) /\
  m_latestVersionsByRepo (rebuild st1)
  = m_latestVersionsByRepo (rebuild st2) /\
  m_addonsByRepoMap (rebuild st1) = m_addonsByRepoMap (rebuild st2).
Proof.
  intros E.
  destruct (rebuild_spec st1) as (HO1 & HP1 & HR1 & HK1 & HB1 & _).
  destruct (rebuild_spec st2) as (HO2 & HP2 & HR2 & HK2 & HB2 & _).
  rewrite HO1, HO2, HP1, HP2, HB1, HB2, E.
  repeat split; auto. apply byRepo_latest_ext.
  - intros r. now rewrite HK1, HK2, E.
  - intros r. now rewrite HR1, HR2, E.
Qed.

Lemma group_skips_incompatible (allAddons : list Addon)
  (byRepo : list (string * Entries)) :
  fold_left (LoadAddonsFromDatabase_group m_addonMgr) allAddons byRepo =
  fold_left (LoadAddonsFromDatabase_group m_addonMgr)
    (List.filter (IsCompatible m_addonMgr) allAddons) byRepo.
Proof.
  revert byRepo. induction allAddons as [|a l IH]; intros byRepo;
    [reflexivity|].
  cbn [fold_left List.filter].
  destruct (IsCompatible m_addonMgr a) eqn:E.
  - cbn [fold_left]. apply IH.
  - assert (LoadAddonsFromDatabase_group m_addonMgr byRepo a = byRepo) as ->
        by (unfold LoadAddonsFromDatabase_group; now rewrite E).
    apply IH.
Qed.

(** X6: a rebuild starts from empty maps: its result depends on the
    previous state only through [m_allAddons] and [m_addonsByRepoMap],
    both of which it leaves as they were, so nothing of the old maps
    survives and a second rebuild changes nothing. *)
Theorem SetupLatestVersionMaps_from_scratch (st : Repos) :
  (forall st' : Repos,
      m_allAddons st' = m_allAddons st ->
      m_addonsByRepoMap st' = m_addonsByRepoMap st ->
      SetupLatestVersionMaps vgt ORIGIN_SYSTEM officialRepoInfos st'
      = SetupLatestVersionMaps vgt ORIGIN_SYSTEM officialRepoInfos st) /\
  m_allAddons (SetupLatestVersionMaps vgt ORIGIN_SYSTEM officialRepoInfos st)
  = m_allAddons st /\
  m_addonsByRepoMap
    (SetupLatestVersionMaps vgt ORIGIN_SYSTEM officialRepoInfos st)
  = m_addonsByRepoMap st /\
  SetupLatestVersionMaps vgt ORIGIN_SYSTEM officialRepoInfos
    (SetupLatestVersionMaps vgt ORIGIN_SYSTEM officialRepoInfos st)
  = SetupLatestVersionMaps vgt ORIGIN_SYSTEM officialRepoInfos st.
Proof.
  assert (forall st1 st2 : Repos,
             m_allAddons st1 = m_allAddons st2 ->
             m_addonsByRepoMap st1 = m_addonsByRepoMap st2 ->
             rebuild st1 = rebuild st2) as Hdep.
  { intros st1 st2 HA HB. unfold SetupLatestVersionMaps.
    now rewrite HA, HB. }
  destruct (rebuild_spec st) as (_ & _ & _ & _ & HB & HA).
  repeat split; auto.
Qed.

(** X7: the records [IsCompatible] rejects take part in nothing but
    [m_allAddons]: a load gives the same grouping and the same three maps
    as the load of a database that returns the fetched records without
    the rejected ones. *)
Theorem LoadAddonsFromDatabase_ignores_incompatible
  (database : CAddonDatabase CAddonVersion) (addonId : string)
  (st : Repos) :
  let compatible_only :=
    mkAddonDatabase
      (List.filter (IsCompatible m_addonMgr) (GetRepositoryContent database))
      (fun id =>
         List.filter (IsCompatible m_addonMgr) (FindByAddonId database id)) in
  let st1 :=
    LoadAddonsFromDatabase vgt ORIGIN_SYSTEM officialRepoInfos m_addonMgr
      database addonId st in
  let st2 :=
    LoadAddonsFromDatabase vgt ORIGIN_SYSTEM officialRepoInfos m_addonMgr
      compatible_only addonId st in
  m_allAddons st1 = fetched database addonId /\
  m_addonsByRepoMap st1 = m_addonsByRepoMap st2 /\
  m_latestOfficialVersions st1 = m_latestOfficialVersions st2 /\
  m_latestPrivateVersions st1 = m_latestPrivateVersions st2 /\
  m_latestVersionsByRepo st1 = m_latestVersionsByRepo st2.
Proof.
  cbn zeta. rewrite !load_unfold.
  set (db2 := mkAddonDatabase _ _).
  assert (fetched db2 addonId
          = List.filter (IsCompatible m_addonMgr) (fetched database addonId))
    as Hf.
  { unfold fetched, db2. cbn. now destruct (String.eqb addonId ""). }
  rewrite Hf.
  match goal with
  | |- context [m_addonsByRepoMap (rebuild ?s1) =
                m_addonsByRepoMap (rebuild ?s2)] =>
      destruct (rebuild_maps_of_byRepo s1 s2) as (HO & HP & HR & HB);
      [cbn; apply group_skips_incompatible|];
      destruct (rebuild_spec s1) as (_ & _ & _ & _ & _ & HA)
  end.
  rewrite HA. auto.
Qed.

(** What a load leaves in the map of a repository is a compatible fetched
    record of that origin, filed under its own id. *)
Lemma load_repo_holds_catalog_records
  (database : CAddonDatabase CAddonVersion) (addonId : string)
  (st : Repos) (repo k : string) (s : Addon) :
  repo_latest (m_latestVersionsByRepo (load database addonId st)) repo !! k
  = Some s ->
  s ∈ fetched database addonId /\ IsCompatible m_addonMgr s = true /\
  Origin s = repo /\ ID s = k.
Proof.
  destruct (load_spec database addonId st) as (_ & _ & HR & _).
  rewrite HR. intros Hs.
  apply latest_holds_selected in Hs
    as [Hs | (e & He & Hsel & <- & Hk)];
    [now rewrite lookup_empty in Hs|].
  apply load_entries in He as (a & Ha & Hc & ->). cbn in *.
  apply String.eqb_eq in Hsel. auto.
Qed.

(** X8: after a load, [m_latestVersionsByRepo] has an entry for a
    repository exactly when some compatible fetched record has it as
    origin, and every record it holds under a repository and an id is a
    compatible fetched record of that origin and that id. *)
Theorem LoadAddonsFromDatabase_latest_by_repo
  (database : CAddonDatabase CAddonVersion) (addonId : string)
  (st : Repos) :
  let st' :=
    LoadAddonsFromDatabase vgt ORIGIN_SYSTEM officialRepoInfos m_addonMgr
      database addonId st in
  (forall repo : string,
      is_Some (m_latestVersionsByRepo st' !! repo) <->
      exists a, a ∈ fetched database addonId /\
                IsCompatible m_addonMgr a = true /\ Origin a = repo) /\
  (forall (repo : string) (inner : gmap string Addon) (k : string)
          (s : Addon),
      m_latestVersionsByRepo st' !! repo = Some inner ->
      inner !! k = Some s ->
      s ∈ fetched database addonId /\ IsCompatible m_addonMgr s = true /\
      Origin s = repo /\ ID s = k).
Proof.
  cbn zeta.
  destruct (load_spec database addonId st) as (_ & _ & _ & HK).
  split.
  - intros repo. rewrite HK. split.
    + intros (e & He & <-). apply load_entries in He as (a & Ha & Hc & ->).
      exists a. auto.
    + intros (a & Ha & Hc & <-). exists (Origin a, a).
      split; [|reflexivity]. apply load_entries. exists a. auto.
  - intros repo inner k s Hinner Hs.
    apply (load_repo_holds_catalog_records database addonId st repo k s).
    unfold repo_latest. now rewrite Hinner.
Qed.

(** X9: the per-repository overload of [AddAddonIfLatest] does to the map
    of its repository what the plain overload does to a map, starting from
    the empty map when the repository has no entry yet, and it leaves the
    maps of the other repositories as they were. *)
Theorem AddAddonIfLatestByRepo_acts_on_its_repo (repoId : string)
  (addonToAdd : Addon) (map : gmap string (gmap string Addon)) :
  AddAddonIfLatestByRepo vgt repoId addonToAdd map !! repoId
  = Some (AddAddonIfLatest vgt addonToAdd (repo_latest map repoId)) /\
  forall other : string,
    other <> repoId ->
    AddAddonIfLatestByRepo vgt repoId addonToAdd map !! other = map !! other.
Proof.
  split.
  - pose proof (repo_latest_add repoId repoId addonToAdd map) as H.
    rewrite String.eqb_refl in H. unfold repo_latest in H at 1.
    destruct (AddAddonIfLatestByRepo vgt repoId addonToAdd map !! repoId)
      as [inner|] eqn:E; cbn in H; [now rewrite H|].
    assert (is_Some
              (AddAddonIfLatestByRepo vgt repoId addonToAdd map !! repoId))
      as [x Hx] by (apply byRepo_key_add; now left).
    congruence.
  - intros other Hne. unfold AddAddonIfLatestByRepo.
    destruct (map !! repoId) as [inner|].
    + destruct (inner !! ID addonToAdd) as [s|]; [destruct (vgt _ _)|];
        rewrite ?lookup_insert_ne by congruence; reflexivity.
    + rewrite lookup_insert_ne by congruence. reflexivity.
Qed.

(** What a load leaves in the official or the private map is a compatible
    fetched record filed under its own id. *)
Lemma load_holds_catalog_records
  (database : CAddonDatabase CAddonVersion) (addonId : string)
  (st : Repos) (k : string) (s : Addon) :
  (m_latestOfficialVersions (load database addonId st) !! k = Some s ->
   strict s = true /\ s ∈ fetched database addonId /\
   IsCompatible m_addonMgr s = true /\ ID s = k) /\
  (m_latestPrivateVersions (load database addonId st) !! k = Some s ->
   strict s = false /\ s ∈ fetched database addonId /\
   IsCompatible m_addonMgr s = true /\ ID s = k).
Proof.
  destruct (load_spec database addonId st) as (HO & HP & _).
  split; intros Hs; [rewrite HO in Hs | rewrite HP in Hs];
    (apply latest_holds_selected in Hs
      as [Hs | (e & He & Hsel & <- & Hk)];
     [now rewrite lookup_empty in Hs|]);
    apply load_entries in He as (a & Ha & Hc & ->); cbn in *.
  - auto.
  - apply negb_true_iff in Hsel. auto.
Qed.

(** X10: after a load, an update offered for an installed add-on is one
    of the compatible fetched records and has the id of the add-on. *)
Theorem DoAddonUpdateCheck_offers_catalog_record
  (database : CAddonDatabase CAddonVersion) (addonId : string)
  (st : Repos) (addon : Addon) (update : option Addon) (u : Addon) :
  let st' :=
    LoadAddonsFromDatabase vgt ORIGIN_SYSTEM officialRepoInfos m_addonMgr
      database addonId st in
  (DoAddonUpdateCheck vgt ORIGIN_SYSTEM m_addonMgr st' addon update).2
  = Some u ->
  u ∈ fetched database addonId /\ IsCompatible m_addonMgr u = true /\
  ID u = ID addon.
Proof.
  cbn zeta. intros Hu.
  destruct (check_outcomes _ vgt ORIGIN_SYSTEM m_addonMgr
              (load database addonId st) addon update)
    as [(u' & E & Hf & _) | E]; rewrite E in Hu; cbn in Hu; [|discriminate].
  injection Hu as ->.
  destruct Hf as [Hoff | (_ & _ & Hpriv)].
  - apply load_holds_catalog_records in Hoff. tauto.
  - apply load_holds_catalog_records in Hpriv. tauto.
Qed.

(** X11: after a load, the update offered to an add-on of system origin
    passes the path-checked official test, and so does any update offered
    while the official map has the id of the add-on; a record that fails
    the test is offered only to an add-on that is not of system origin and
    whose id the official map lacks. *)
Theorem DoAddonUpdateCheck_official_first
  (database : CAddonDatabase CAddonVersion) (addonId : string)
  (st : Repos) (addon : Addon) (update : option Addon) (u : Addon) :
  let st' :=
    LoadAddonsFromDatabase vgt ORIGIN_SYSTEM officialRepoInfos m_addonMgr
      database addonId st in
  (DoAddonUpdateCheck vgt ORIGIN_SYSTEM m_addonMgr st' addon update).2
  = Some u ->
  (Origin addon = ORIGIN_SYSTEM \/
   is_Some (m_latestOfficialVersions st' !! ID addon) ->
   IsFromOfficialRepo ORIGIN_SYSTEM officialRepoInfos u true = true) /\
  (IsFromOfficialRepo ORIGIN_SYSTEM officialRepoInfos u true = false ->
   Origin addon <> ORIGIN_SYSTEM /\
   m_latestOfficialVersions st' !! ID addon = None).
Proof.
  cbn zeta. intros Hu.
  destruct (check_outcomes _ vgt ORIGIN_SYSTEM m_addonMgr
              (load database addonId st) addon update)
    as [(u' & E & Hf & _) | E]; rewrite E in Hu; cbn in Hu; [|discriminate].
  injection Hu as ->.
  destruct Hf as [Hoff | (Hsys & Hoff & Hpriv)].
  - apply load_holds_catalog_records in Hoff as (Hstrict & _).
    split; [auto | congruence].
  - apply load_holds_catalog_records in Hpriv as (Hstrict & _).
    split; [|auto].
    intros [Hs | [x Hx]]; [contradiction | congruence].
Qed.

(** X12: a load by id that fetches only records of that id, as the
    database is meant to return, leaves no other id in the official and
    the private map nor in the map of any repository. *)
Theorem LoadAddonsFromDatabase_by_id
  (database : CAddonDatabase CAddonVersion) (addonId : string)
  (st : Repos) :
  addonId <> "" ->
  (forall a, a ∈ FindByAddonId database addonId -> ID a = addonId) ->
  let st' :=
    LoadAddonsFromDatabase vgt ORIGIN_SYSTEM officialRepoInfos m_addonMgr
      database addonId st in
  m_allAddons st' = FindByAddonId database addonId /\
  forall k : string,
    k <> addonId ->
    m_latestOfficialVersions st' !! k = None /\
    m_latestPrivateVersions st' !! k = None /\
    forall repo : string,
      repo_latest (m_latestVersionsByRepo st') repo !! k = None.
Proof.
  intros Hne Hid. cbn zeta.
  assert (fetched database addonId = FindByAddonId database addonId) as Hf.
  { unfold fetched. destruct (String.eqb_spec addonId ""); congruence. }
  split.
  - rewrite load_unfold.
    match goal with
    | |- m_allAddons (rebuild ?s0) = _ =>
        destruct (rebuild_spec s0) as (_ & _ & _ & _ & _ & ->)
    end.
    exact Hf.
  - intros k Hk.
    pose proof (load_holds_catalog_records database addonId st k) as Hmap.
    split; [|split].
    + destruct (m_latestOfficialVersions (load database addonId st) !! k)
        as [s|] eqn:E; [|reflexivity].
      destruct (Hmap s) as [H _]. destruct (H eq_refl) as (_ & Hin & _ & Hs).
      rewrite Hf in Hin. apply Hid in Hin. congruence.
    + destruct (m_latestPrivateVersions (load database addonId st) !! k)
        as [s|] eqn:E; [|reflexivity].
      destruct (Hmap s) as [_ H]. destruct (H eq_refl) as (_ & Hin & _ & Hs).
      rewrite Hf in Hin. apply Hid in Hin. congruence.
    + intros repo.
      destruct (repo_latest
                  (m_latestVersionsByRepo (load database addonId st)) repo
                !! k) as [s|] eqn:E; [|reflexivity].
      destruct (load_repo_holds_catalog_records _ _ _ _ _ _ E)
        as (Hin & _ & _ & Hs).
      rewrite Hf in Hin. apply Hid in Hin. congruence.
Qed.

Section Order.

(** The comparison of versions is a strict order. *)
Hypothesis vgt_irrefl : forall v, vgt v v = false.
Hypothesis vgt_trans :
  forall u v w, vgt u v = true -> vgt v w = true -> vgt u w = true.

(** The version held under a key never decreases. *)
Lemma latest_grows (sel : string * Addon -> bool) (l : Entries)
  (m : Index) (k : string) (s : Addon) :
  m !! k = Some s ->
  exists s', latest sel l m !! k = Some s' /\
             (forall v, vgt v (Version s') = true ->
                        vgt v (Version s) = true).
Proof.
  revert m s. induction l as [|e l IH]; intros m s Hk.
  - exists s. split; [exact Hk | auto].
  - rewrite latest_cons. destruct (sel e); [|now apply IH].
    destruct (decide (k = ID e.2)) as [->|Hne].
    + pose proof (add_lookup_eq e.2 m) as Hadd. rewrite Hk in Hadd.
      destruct (vgt (Version e.2) (Version s)) eqn:Hv.
      * destruct (IH _ _ Hadd) as (s' & Hs' & Hle).
        exists s'. split; [exact Hs'|].
        intros v Hgt. eapply vgt_trans; [now apply Hle | exact Hv].
      * now apply IH.
    + apply IH. now rewrite add_lookup_ne.
Qed.

(** No selected record is newer than the one held under its id. *)
Lemma latest_is_max (sel : string * Addon -> bool) (l : Entries)
  (m : Index) (e : string * Addon) (s : Addon) :
  e ∈ l -> sel e = true ->
  latest sel l m !! ID e.2 = Some s ->
  vgt (Version e.2) (Version s) = false.
Proof.
  revert m. induction l as [|e' l IH]; intros m Hin Hsel Hs.
  - now apply elem_of_nil in Hin.
  - rewrite latest_cons in Hs. apply elem_of_cons in Hin as [<- | Hin].
    + rewrite Hsel in Hs.
      pose proof (add_lookup_eq e.2 m) as Hadd.
      destruct (m !! ID e.2) as [s0|] eqn:E.
      * destruct (vgt (Version e.2) (Version s0)) eqn:Hv.
        -- destruct (latest_grows sel l _ _ _ Hadd) as (s' & Hs' & Hle).
           rewrite Hs in Hs'. injection Hs' as <-.
           destruct (vgt (Version e.2) (Version s)) eqn:Hgt;
             [|reflexivity].
           apply Hle in Hgt. now rewrite vgt_irrefl in Hgt.
        -- destruct (latest_grows sel l _ _ _ Hadd) as (s' & Hs' & Hle).
           rewrite Hs in Hs'. injection Hs' as <-.
           destruct (vgt (Version e.2) (Version s)) eqn:Hgt;
             [|reflexivity].
           apply Hle in Hgt. now rewrite Hv in Hgt.
      * destruct (latest_grows sel l _ _ _ Hadd) as (s' & Hs' & Hle).
        rewrite Hs in Hs'. injection Hs' as <-.
        destruct (vgt (Version e.2) (Version s)) eqn:Hgt; [|reflexivity].
        apply Hle in Hgt. now rewrite vgt_irrefl in Hgt.
    + eapply IH; eauto.
Qed.

(** Two entry lists with the same members give maps with the same keys
    and, under each key, versions that compare equal. *)
Lemma latest_same_members (sel : string * Addon -> bool)
  (l1 l2 : Entries) (k : string) :
  (forall e, e ∈ l1 <-> e ∈ l2) ->
  same_latest vgt (latest sel l1 ∅ !! k) (latest sel l2 ∅ !! k).
Proof.
  intros Hmem. unfold same_latest, veq.
  destruct (latest sel l1 ∅ !! k) as [s1|] eqn:E1;
    destruct (latest sel l2 ∅ !! k) as [s2|] eqn:E2; [| | |exact I].
  - destruct (latest_holds_selected _ _ _ _ _ E1)
      as [H | (e1 & Hin1 & Hsel1 & <- & Hk1)]; [now rewrite lookup_empty in H|].
    destruct (latest_holds_selected _ _ _ _ _ E2)
      as [H | (e2 & Hin2 & Hsel2 & <- & Hk2)]; [now rewrite lookup_empty in H|].
    apply andb_true_iff. split; apply negb_true_iff.
    + apply (latest_is_max sel l2 ∅ e1); [now apply Hmem | exact Hsel1|].
      now rewrite Hk1.
    + apply (latest_is_max sel l1 ∅ e2); [now apply Hmem | exact Hsel2|].
      now rewrite Hk2.
  - destruct (latest_holds_selected _ _ _ _ _ E1)
      as [H | (e1 & Hin1 & Hsel1 & <- & Hk1)]; [now rewrite lookup_empty in H|].
    destruct (latest_covers sel l2 ∅ e1) as [s Hs];
      [now apply Hmem | exact Hsel1|].
    rewrite Hk1, E2 in Hs. discriminate.
  - destruct (latest_holds_selected _ _ _ _ _ E2)
      as [H | (e2 & Hin2 & Hsel2 & <- & Hk2)]; [now rewrite lookup_empty in H|].
    destruct (latest_covers sel l1 ∅ e2) as [s Hs];
      [now apply Hmem | exact Hsel2|].
    rewrite Hk2, E1 in Hs. discriminate.
Qed.

(** *** Claims on the latest versions *)

(** C6: after any rebuild, the record held under an id in the official
    map, in the private map, or in the map of a repository, has a
    version at least as great as that of every visited record of that
    id that is of the same class, respectively of that repository. *)
Theorem SetupLatestVersionMaps_latest_is_max (st : Repos)
  (repo : string) (a : Addon) :
  (repo, a) ∈ byRepo_entries (m_addonsByRepoMap st) ->
  let official (a : Addon) : bool :=
    IsFromOfficialRepo ORIGIN_SYSTEM officialRepoInfos a true in
  let st' := SetupLatestVersionMaps vgt ORIGIN_SYSTEM officialRepoInfos st in
  (forall s,
      m_latestOfficialVersions st' !! ID a = Some s ->
      official a = true -> vge vgt (Version s) (Version a) = true) /\
  (forall s,
      m_latestPrivateVersions st' !! ID a = Some s ->
      official a = false -> vge vgt (Version s) (Version a) = true) /\
  (forall inner s,
      m_latestVersionsByRepo st' !! repo = Some inner ->
      inner !! ID a = Some s ->
      vge vgt (Version s) (Version a) = true).
Proof.
  intros Hin. cbn zeta.
  destruct (rebuild_spec st) as (HO & HP & HR & _).
  unfold vge. split; [|split].
  - intros s Hs Hc. rewrite HO in Hs. apply negb_true_iff.
    exact (latest_is_max selO _ ∅ (repo, a) s Hin Hc Hs).
  - intros s Hs Hc. rewrite HP in Hs. apply negb_true_iff.
    apply (latest_is_max selP _ ∅ (repo, a) s Hin); [|exact Hs].
    cbn. now rewrite Hc.
  - intros inner s Hinner Hs. apply negb_true_iff.
    specialize (HR repo). unfold repo_latest in HR at 1.
    rewrite Hinner in HR. cbn in HR. rewrite HR in Hs.
    apply (latest_is_max (selR repo) _ ∅ (repo, a) s Hin); [|exact Hs].
    cbn. apply String.eqb_refl.
Qed.

(** Two offers to a map can be made in either order when the records
    have different ids, are the same record, or have versions one of which
    is greater than the other. *)
Lemma add_commute (a b : Addon) (m : Index) :
  ID a <> ID b \/ a = b \/
  vgt (Version a) (Version b) = true \/ vgt (Version b) (Version a) = true ->
  add b (add a m) = add a (add b m).
Proof.
  intros H. apply map_eq. intros k.
  destruct (decide (ID a = ID b)) as [E|Hne].
  - destruct H as [H | [-> | H]]; [contradiction | reflexivity |].
    destruct (decide (k = ID a)) as [->|Hk].
    + rewrite (add_lookup_eq a (add b m)).
      rewrite E, (add_lookup_eq b (add a m)), (add_lookup_eq b m).
      rewrite <- E, (add_lookup_eq a m).
      destruct (m !! ID a) as [s|];
        repeat match goal with
               | |- context [vgt ?u ?v] =>
                   let Hv := fresh "Hv" in destruct (vgt u v) eqn:Hv
               end;
        try reflexivity; exfalso;
        repeat match goal with
               | H1 : vgt ?u ?v = true, H2 : vgt ?v ?w = true |- _ =>
                   lazymatch goal with
                   | _ : vgt u w = true |- _ => fail
                   | _ => pose proof (vgt_trans _ _ _ H1 H2)
                   end
               end;
        try match goal with
            | H1 : vgt ?u ?u = true |- _ =>
                rewrite vgt_irrefl in H1; discriminate
            end;
        destruct H; congruence.
    + rewrite !add_lookup_ne by congruence. reflexivity.
  - destruct (decide (k = ID a)) as [->|Hka];
      [|destruct (decide (k = ID b)) as [->|Hkb]].
    + rewrite (add_lookup_ne b) by exact Hne.
      rewrite !add_lookup_eq. now rewrite (add_lookup_ne b) by exact Hne.
    + rewrite (add_lookup_ne a) by congruence.
      rewrite !add_lookup_eq. now rewrite (add_lookup_ne a) by congruence.
    + rewrite !add_lookup_ne by congruence. reflexivity.
Qed.

(** A holder stays when no later record is newer. *)
Lemma latest_keeps_holder (sel : string * Addon -> bool) (l : Entries)
  (m : Index) (k : string) (w : Addon) :
  m !! k = Some w ->
  (forall x, x ∈ l -> sel x = true -> ID x.2 = k ->
             vgt (Version x.2) (Version w) = false) ->
  latest sel l m !! k = Some w.
Proof.
  revert m. induction l as [|e l IH]; intros m Hm Hl; [exact Hm|].
  rewrite latest_cons. apply IH.
  - destruct (sel e) eqn:Hsel; [|exact Hm].
    destruct (decide (k = ID e.2)) as [->|Hne].
    + rewrite add_lookup_eq, Hm.
      rewrite (Hl e); auto. left.
    + now rewrite add_lookup_ne.
  - intros x Hx. apply Hl. now right.
Qed.

(** The record held under an id is one that is newer than every other
    record of that id visited before it and that no record visited after
    it is newer than. *)
Lemma latest_first_greatest (sel : string * Addon -> bool)
  (before after : Entries) (e : string * Addon) :
  sel e = true ->
  (forall x, x ∈ before -> sel x = true -> ID x.2 = ID e.2 ->
             x.2 = e.2 \/ vgt (Version e.2) (Version x.2) = true) ->
  (forall x, x ∈ after -> sel x = true -> ID x.2 = ID e.2 ->
             vgt (Version x.2) (Version e.2) = false) ->
  latest sel (before ++ e :: after) ∅ !! ID e.2 = Some e.2.
Proof.
  intros Hsel Hb Ha. rewrite latest_app, latest_cons, Hsel.
  apply latest_keeps_holder; [|exact Ha].
  rewrite add_lookup_eq.
  destruct (latest sel before ∅ !! ID e.2) as [s|] eqn:E; [|reflexivity].
  apply latest_holds_selected in E as [E | (x & Hx & Hsx & <- & Hid)];
    [now rewrite lookup_empty in E|].
  destruct (Hb x Hx Hsx Hid) as [-> | Hv].
  - now rewrite vgt_irrefl.
  - now rewrite Hv.
Qed.

(** After a load, a record that is first among the greatest of its id
    is the one held under that id. *)
Lemma load_holds_first_greatest
  (database : CAddonDatabase CAddonVersion) (addonId : string)
  (st : Repos) (sel : string * Addon -> bool) (f : Addon -> bool)
  (w : Addon) :
  (forall a, sel (Origin a, a) = f a) ->
  first_greatest vgt (fun a => IsCompatible m_addonMgr a && f a)
    (fetched database addonId) w ->
  latest sel
    (byRepo_entries (m_addonsByRepoMap (load database addonId st))) ∅
  !! ID w = Some w.
Proof.
  intros Hsel (Hin & Hw & Hfirst).
  apply andb_true_iff in Hw as [Hc Hf].
  assert ((Origin w, w)
            ∈ byRepo_entries
                (m_addonsByRepoMap (load database addonId st))) as He.
  { apply load_entries. exists w. auto. }
  assert (StronglySorted
            (fun x y : string * Addon => ~ key_lt y.1 x.1)
            (byRepo_entries
               (m_addonsByRepoMap (load database addonId st)))) as Hsorted.
  { apply byRepo_entries_sorted. rewrite load_byRepo.
    apply group_sorted. split; constructor. }
  assert (forall x,
             x ∈ byRepo_entries
                   (m_addonsByRepoMap (load database addonId st)) ->
             sel x = true -> ID x.2 = ID w ->
             x.2 = w \/
             if String.ltb (Origin w) x.1
             then vgt (Version x.2) (Version w) = false
             else vgt (Version w) (Version x.2) = true) as Hall.
  { intros x Hx Hsx Hid.
    apply load_entries in Hx as (a & Ha & Hca & ->). cbn [fst snd] in *.
    rewrite Hsel in Hsx. apply Hfirst; auto. now rewrite Hca, Hsx. }
  apply list_elem_of_split in He as (before & after & Hsplit).
  rewrite Hsplit in Hsorted, Hall |- *.
  apply (latest_first_greatest sel before after (Origin w, w)).
  - now rewrite Hsel.
  - intros x Hx Hsx Hid.
    destruct (Hall x) as [Heq | Hv]; auto.
    { apply elem_of_app. now left. }
    destruct (String.ltb (Origin w) x.1) eqn:Hlt; [|now right].
    exfalso. apply ltb_key_lt in Hlt.
    apply (StronglySorted_app_1_elem_of _ _ _ x (Origin w, w) Hsorted Hx);
      [left | exact Hlt].
  - intros x Hx Hsx Hid.
    destruct (Hall x) as [Heq | Hv]; auto.
    { apply elem_of_app. right. now right. }
    + cbn. rewrite Heq. apply vgt_irrefl.
    + destruct (String.ltb (Origin w) x.1); [exact Hv|].
      cbn [snd] in *.
      destruct (vgt (Version x.2) (Version w)) eqn:Hxw; [|reflexivity].
      pose proof (vgt_trans _ _ _ Hv Hxw) as Hww.
      now rewrite vgt_irrefl in Hww.
Qed.

(** With one such record for every id offered to it, the map a load
    leaves is the same for every order of the fetched records. *)
Lemma load_first_greatest_same
  (database1 database2 : CAddonDatabase CAddonVersion)
  (addonId : string) (st1 st2 : Repos)
  (sel : string * Addon -> bool) (f : Addon -> bool) :
  fetched database1 addonId ≡ₚ fetched database2 addonId ->
  (forall a, sel (Origin a, a) = f a) ->
  (forall a,
      a ∈ fetched database1 addonId ->
      IsCompatible m_addonMgr a && f a = true ->
      exists w,
        first_greatest vgt (fun a => IsCompatible m_addonMgr a && f a)
          (fetched database1 addonId) w /\ ID w = ID a) ->
  latest sel
    (byRepo_entries (m_addonsByRepoMap (load database1 addonId st1))) ∅
  = latest sel
      (byRepo_entries (m_addonsByRepoMap (load database2 addonId st2))) ∅.
Proof.
  intros Hperm Hsel Hwin.
  assert (forall w,
             first_greatest vgt (fun a => IsCompatible m_addonMgr a && f a)
               (fetched database1 addonId) w ->
             first_greatest vgt (fun a => IsCompatible m_addonMgr a && f a)
               (fetched database2 addonId) w) as Hmove.
  { intros w (Hin & Hw & Hfirst). split; [now rewrite <- Hperm|].
    split; [exact Hw|]. intros a Ha. apply Hfirst. now rewrite Hperm. }
  assert (forall (database : CAddonDatabase CAddonVersion) (st : Repos)
                 (k : string) (s : Addon),
             latest sel
               (byRepo_entries
                  (m_addonsByRepoMap (load database addonId st))) ∅
             !! k = Some s ->
             s ∈ fetched database addonId /\
             IsCompatible m_addonMgr s && f s = true /\ ID s = k) as Hheld.
  { intros database st k s Hs.
    apply latest_holds_selected in Hs as [Hs | (e & He & Hse & <- & Hid)];
      [now rewrite lookup_empty in Hs|].
    apply load_entries in He as (a & Ha & Hc & ->). cbn [snd] in *.
    rewrite Hsel in Hse. now rewrite Hc, Hse. }
  assert (forall a,
             a ∈ fetched database1 addonId ->
             IsCompatible m_addonMgr a && f a = true ->
             exists w,
               ID w = ID a /\
               latest sel
                 (byRepo_entries
                    (m_addonsByRepoMap (load database1 addonId st1))) ∅
               !! ID a = Some w /\
               latest sel
                 (byRepo_entries
                    (m_addonsByRepoMap (load database2 addonId st2))) ∅
               !! ID a = Some w) as Hboth.
  { intros a Ha Hsa. destruct (Hwin a Ha Hsa) as (w & Hw & Hid).
    exists w. rewrite <- Hid. split; [reflexivity|]. split.
    - now apply load_holds_first_greatest with (f := f).
    - apply load_holds_first_greatest with (f := f); auto. }
  apply map_eq. intros k.
  destruct (latest sel
              (byRepo_entries
                 (m_addonsByRepoMap (load database1 addonId st1))) ∅ !! k)
    as [s1|] eqn:E1.
  - destruct (Hheld _ _ _ _ E1) as (Hin & Hs & <-).
    destruct (Hboth s1 Hin Hs) as (w & _ & H1 & H2). congruence.
  - destruct (latest sel
                (byRepo_entries
                   (m_addonsByRepoMap (load database2 addonId st2))) ∅ !! k)
      as [s2|] eqn:E2; [|reflexivity].
    destruct (Hheld _ _ _ _ E2) as (Hin & Hs & <-).
    rewrite <- Hperm in Hin.
    destruct (Hboth s2 Hin Hs) as (w & _ & H1 & H2). congruence.
Qed.


(** *** Further properties that rest on the order of versions *)

(** X13: offering a record a second time changes nothing. *)
Theorem AddAddonIfLatest_idempotent (addonToAdd : Addon) (map : Index) :
  AddAddonIfLatest vgt addonToAdd (AddAddonIfLatest vgt addonToAdd map)
  = AddAddonIfLatest vgt addonToAdd map.
Proof.
  unfold AddAddonIfLatest at 1. rewrite add_lookup_eq.
  destruct (map !! ID addonToAdd) as [s|] eqn:E.
  - destruct (vgt (Version addonToAdd) (Version s)) eqn:Hv.
    + rewrite vgt_irrefl. reflexivity.
    + rewrite Hv. reflexivity.
  - rewrite vgt_irrefl. reflexivity.
Qed.

(** X14: when the order of versions is a weak order, a load misses no
    newer version: if a compatible fetched record that passes the
    path-checked official test has the id of the installed add-on and a
    greater version, an update is offered, it passes the test too, and it
    is at least as new as that record; the same holds of the records that
    fail the test, for an add-on that is not of system origin and whose id
    the official map lacks. *)
Theorem DoAddonUpdateCheck_misses_no_newer_version
  (database : CAddonDatabase CAddonVersion) (addonId : string)
  (st : Repos) (addon : Addon) (update : option Addon) (newer : Addon) :
  (forall u v w, vgt u w = true -> vgt u v = true \/ vgt v w = true) ->
  newer ∈ fetched database addonId ->
  IsCompatible m_addonMgr newer = true ->
  ID newer = ID addon ->
  vgt (Version newer) (Version addon) = true ->
  let st' :=
    LoadAddonsFromDatabase vgt ORIGIN_SYSTEM officialRepoInfos m_addonMgr
      database addonId st in
  let result :=
    DoAddonUpdateCheck vgt ORIGIN_SYSTEM m_addonMgr st' addon update in
  (IsFromOfficialRepo ORIGIN_SYSTEM officialRepoInfos newer true = true ->
   exists u,
     result = (true, Some u) /\
     IsFromOfficialRepo ORIGIN_SYSTEM officialRepoInfos u true = true /\
     vge vgt (Version u) (Version newer) = true) /\
  (IsFromOfficialRepo ORIGIN_SYSTEM officialRepoInfos newer true = false ->
   Origin addon <> ORIGIN_SYSTEM ->
   m_latestOfficialVersions st' !! ID addon = None ->
   exists u,
     result = (true, Some u) /\
     IsFromOfficialRepo ORIGIN_SYSTEM officialRepoInfos u true = false /\
     vge vgt (Version u) (Version newer) = true).
Proof.
  intros Hweak Hin Hc Hid Hv. cbn zeta.
  destruct (load_spec database addonId st) as (HO & HP & _).
  assert ((Origin newer, newer)
            ∈ byRepo_entries
                (m_addonsByRepoMap (load database addonId st))) as Hent.
  { apply load_entries. exists newer. auto. }
  unfold vge. split.
  - intros Hstrict.
    destruct (latest_covers selO _ ∅ _ Hent Hstrict) as [s Hs].
    pose proof (latest_is_max selO _ ∅ _ s Hent Hstrict Hs) as Hmax.
    cbn [snd] in Hs, Hmax. rewrite <- HO, Hid in Hs.
    exists s. split; [|split].
    + rewrite (check_of_official_hit _ vgt ORIGIN_SYSTEM m_addonMgr
                 _ addon s update Hs).
      destruct (Hweak _ (Version s) _ Hv) as [H | H]; [congruence|].
      now rewrite H.
    + now apply (load_holds_catalog_records database addonId st (ID addon)).
    + now rewrite Hmax.
  - intros Hstrict Hsys Hoff.
    assert (selP (Origin newer, newer) = true) as Hsel
        by (cbn; now rewrite Hstrict).
    destruct (latest_covers selP _ ∅ _ Hent Hsel) as [s Hs].
    pose proof (latest_is_max selP _ ∅ _ s Hent Hsel Hs) as Hmax.
    cbn [snd] in Hs, Hmax. rewrite <- HP, Hid in Hs.
    exists s. split; [|split].
    + rewrite (check_of_private_hit _ vgt ORIGIN_SYSTEM m_addonMgr
                 _ addon s update Hsys Hoff Hs).
      destruct (Hweak _ (Version s) _ Hv) as [H | H]; [congruence|].
      now rewrite H.
    + now apply (load_holds_catalog_records database addonId st (ID addon)).
    + now rewrite Hmax.
Qed.

End Order.

End Index.

(** ** The claims on the concrete instance *)

Lemma Zgtb_irrefl (v : Z) : Z.gtb v v = false.
Proof. destruct (Z.gtb_spec v v); [lia | reflexivity]. Qed.

Lemma Zgtb_trans (u v w : Z) :
  Z.gtb u v = true -> Z.gtb v w = true -> Z.gtb u w = true.
Proof.
  destruct (Z.gtb_spec u v); [|discriminate].
  destruct (Z.gtb_spec v w); [|discriminate].
  destruct (Z.gtb_spec u w); [reflexivity | lia].
Qed.

(** C1 at work: [a1] is installed from [repoX]; the official map holds a
    record of the same version, the private map a newer one, and the
    answer is "no update". *)
Lemma DoAddonUpdateCheck_private_only_on_miss_witness :
  Origin Sample.a1 <> Sample.SYSTEM /\
  m_latestPrivateVersions (Sample.load [Sample.a1; Sample.a2; Sample.a_off])
    !! "A" = Some Sample.a2 /\
  DoAddonUpdateCheck Z.gtb Sample.SYSTEM Sample.mgr
    (Sample.load [Sample.a1; Sample.a2; Sample.a_off]) Sample.a1 None
  = (false, None).
Proof.
  split; [discriminate|]. split; [vm_compute; reflexivity|].
  pose proof (DoAddonUpdateCheck_private_only_on_miss Z Z.gtb Sample.SYSTEM
                Sample.mgr
                (Sample.load [Sample.a1; Sample.a2; Sample.a_off])
                Sample.a1 None ltac:(discriminate)) as [Hhit _].
  destruct (Hhit Sample.a_off) as [_ Hno]; [vm_compute; reflexivity|].
  apply Hno; vm_compute; reflexivity.
Defined.

(** C2 at work: the installed [plugin.broken] is disabled for
    incompatibility and the record found has its version; it is offered. *)
Lemma DoAddonUpdateCheck_offer_iff_witness :
  found_in_searched_map Sample.SYSTEM (Sample.load [Sample.broken_remote])
    Sample.broken Sample.broken_remote /\
  DoAddonUpdateCheck Z.gtb Sample.SYSTEM Sample.mgr
    (Sample.load [Sample.broken_remote]) Sample.broken None
  = (true, Some Sample.broken_remote).
Proof.
  assert (found_in_searched_map Sample.SYSTEM
            (Sample.load [Sample.broken_remote])
            Sample.broken Sample.broken_remote) as Hfound.
  { right. split; [discriminate|]. split; vm_compute; reflexivity. }
  split; [exact Hfound|].
  pose proof (DoAddonUpdateCheck_offer_iff Z Z.gtb Sample.SYSTEM Sample.mgr
                (Sample.load [Sample.broken_remote]) Sample.broken
                Sample.broken_remote None Hfound) as (_ & _ & Hsame).
  apply Hsame; vm_compute; reflexivity.
Defined.

(** C3 at work: [a_sys] is of system origin, only the private map has its
    id, with a newer version; the answer is "no update". *)
Lemma DoAddonUpdateCheck_system_official_only_witness :
  Origin Sample.a_sys = Sample.SYSTEM /\
  m_latestPrivateVersions (Sample.load [Sample.a2]) !! "A" = Some Sample.a2 /\
  DoAddonUpdateCheck Z.gtb Sample.SYSTEM Sample.mgr
    (Sample.load [Sample.a2]) Sample.a_sys None
  = (false, None).
Proof.
  split; [reflexivity|]. split; [vm_compute; reflexivity|].
  pose proof (DoAddonUpdateCheck_system_official_only Z Z.gtb Sample.SYSTEM
                Sample.mgr (Sample.load [Sample.a2]) Sample.a_sys None
                eq_refl) as [_ Hmiss].
  apply (Hmiss Sample.a2); vm_compute; reflexivity.
Defined.

(** C6 at work: [a1] is visited under [repoX]; the private map holds [a2]
    under its id, which is at least as new. *)
Lemma SetupLatestVersionMaps_latest_is_max_witness :
  ("repoX", Sample.a1)
    ∈ byRepo_entries
        (m_addonsByRepoMap
           (Sample.load [Sample.a1; Sample.a2; Sample.a_off])) /\
  vge Z.gtb (Version Sample.a2) (Version Sample.a1) = true.
Proof.
  assert (("repoX", Sample.a1)
            ∈ byRepo_entries
                (m_addonsByRepoMap
                   (Sample.load [Sample.a1; Sample.a2; Sample.a_off])))
    as Hin.
  { apply list_elem_of_In. vm_compute. tauto. }
  split; [exact Hin|].
  pose proof (SetupLatestVersionMaps_latest_is_max Z Z.gtb Sample.SYSTEM
                Sample.official Zgtb_irrefl Zgtb_trans
                (Sample.load [Sample.a1; Sample.a2; Sample.a_off])
                "repoX" Sample.a1 Hin) as (_ & Hpriv & _).
  apply (Hpriv Sample.a2); vm_compute; reflexivity.
Defined.



(** C8, as stated, fails: after the load of [a1] and [a2], two records of
    [repoX] with the id [A], [m_addonsByRepoMap] holds both under that
    repository and id. *)
Lemma LoadAddonsFromDatabase_holds_duplicates :
  byRepo_records "repoX" "A"
    (m_addonsByRepoMap (Sample.load [Sample.a1; Sample.a2]))
  = [Sample.a1; Sample.a2].
Proof. vm_compute. reflexivity. Qed.

(** ** The scenarios of the specification on the concrete instance *)

(** The lenient check accepts a record that names the trusted repository;
    the strict check also wants its path under the origin prefix, letter
    case ignored. *)
Example IsFromOfficialRepo_on_sample :
  IsFromOfficialRepo Sample.SYSTEM Sample.official Sample.a_spoof false = true
  /\ IsFromOfficialRepo Sample.SYSTEM Sample.official Sample.a_spoof true
     = false
  /\ IsFromOfficialRepo Sample.SYSTEM Sample.official Sample.a_off true = true
  /\ IsFromOfficialRepo Sample.SYSTEM Sample.official Sample.a_sys true = true
  /\ IsFromOfficialRepo Sample.SYSTEM Sample.official Sample.a1 false = false.
Proof. repeat split; vm_compute; reflexivity. Qed.

(** Versions 1 and 2 of [A] in [repoX] and version 1 in the trusted
    repository: the private map holds version 2, the official map
    version 1, and the installed version 1 of [repoX] gets no update. *)
Example load_three_records :
  Version <$> m_latestPrivateVersions
                (Sample.load [Sample.a1; Sample.a2; Sample.a_off]) !! "A"
  = Some 2%Z /\
  Version <$> m_latestOfficialVersions
                (Sample.load [Sample.a1; Sample.a2; Sample.a_off]) !! "A"
  = Some 1%Z /\
  DoAddonUpdateCheck Z.gtb Sample.SYSTEM Sample.mgr
    (Sample.load [Sample.a1; Sample.a2; Sample.a_off]) Sample.a1 None
  = (false, None).
Proof. repeat split; vm_compute; reflexivity. Qed.

(** An id that only the private map has: the installed record of [repoX]
    is offered the private entry, the one of system origin is not. *)
Example private_fallback_on_sample :
  DoAddonUpdateCheck Z.gtb Sample.SYSTEM Sample.mgr
    (Sample.load [Sample.a2]) Sample.a1 None
  = (true, Some Sample.a2) /\
  DoAddonUpdateCheck Z.gtb Sample.SYSTEM Sample.mgr
    (Sample.load [Sample.a2]) Sample.a_sys (Some Sample.a2)
  = (false, None).
Proof. split; vm_compute; reflexivity. Qed.

(** The update list keeps the order of the installed add-ons and skips
    those without an update. *)
Example BuildUpdateList_on_sample :
  BuildUpdateList Z.gtb Sample.SYSTEM Sample.mgr
    (Sample.load [Sample.a2; Sample.broken_remote])
    [Sample.a1; Sample.a_sys; Sample.broken] []
  = [Some Sample.a2; Some Sample.broken_remote].
Proof. vm_compute. reflexivity. Qed.

(** ** The further properties on the concrete instance *)

Lemma Zgtb_weak (u v w : Z) :
  Z.gtb u w = true -> Z.gtb u v = true \/ Z.gtb v w = true.
Proof.
  destruct (Z.gtb_spec u w); [|discriminate]. intros _.
  destruct (Z.gtb_spec u v); [now left|].
  destruct (Z.gtb_spec v w); [now right | lia].
Qed.

(** X5 at work: with one more trusted repository in front, the record of
    the trusted repository still passes the path-checked test. *)
Lemma IsFromOfficialRepo_registry_monotone_witness :
  IsFromOfficialRepo Sample.SYSTEM
    (mkRepoInfo "repository.other" "https://other.example" :: Sample.official)
    Sample.a_off true = true.
Proof.
  apply (IsFromOfficialRepo_registry_monotone Z Sample.SYSTEM
           Sample.official
           (mkRepoInfo "repository.other" "https://other.example"
              :: Sample.official)
           Sample.a_off true).
  - intros r Hr. now right.
  - vm_compute. reflexivity.
Defined.

(** X10 at work: the update offered to [a1] after the load of [a2] is the
    fetched record [a2], of the same id. *)
Lemma DoAddonUpdateCheck_offers_catalog_record_witness :
  (DoAddonUpdateCheck Z.gtb Sample.SYSTEM Sample.mgr
     (Sample.load [Sample.a2]) Sample.a1 None).2 = Some Sample.a2 /\
  Sample.a2 ∈ fetched (Sample.db [Sample.a2]) "" /\
  ID Sample.a2 = ID Sample.a1.
Proof.
  assert ((DoAddonUpdateCheck Z.gtb Sample.SYSTEM Sample.mgr
             (Sample.load [Sample.a2]) Sample.a1 None).2 = Some Sample.a2)
    as Hu by (vm_compute; reflexivity).
  split; [exact Hu|].
  pose proof (DoAddonUpdateCheck_offers_catalog_record Z Z.gtb Sample.SYSTEM
                Sample.official Sample.mgr (Sample.db [Sample.a2]) ""
                Sample.empty_repos Sample.a1 None Sample.a2 Hu)
    as (Hin & _ & Hid).
  split; [exact Hin | exact Hid].
Defined.

(** X11 at work: [a2] fails the path-checked test and is offered to [a1],
    which is not of system origin and whose id the official map lacks. *)
Lemma DoAddonUpdateCheck_official_first_witness :
  (DoAddonUpdateCheck Z.gtb Sample.SYSTEM Sample.mgr
     (Sample.load [Sample.a2]) Sample.a1 None).2 = Some Sample.a2 /\
  Origin Sample.a1 <> Sample.SYSTEM /\
  m_latestOfficialVersions (Sample.load [Sample.a2]) !! ID Sample.a1 = None.
Proof.
  assert ((DoAddonUpdateCheck Z.gtb Sample.SYSTEM Sample.mgr
             (Sample.load [Sample.a2]) Sample.a1 None).2 = Some Sample.a2)
    as Hu by (vm_compute; reflexivity).
  split; [exact Hu|].
  pose proof (DoAddonUpdateCheck_official_first Z Z.gtb Sample.SYSTEM
                Sample.official Sample.mgr (Sample.db [Sample.a2]) ""
                Sample.empty_repos Sample.a1 None Sample.a2 Hu)
    as (_ & Hprivate).
  apply Hprivate. vm_compute. reflexivity.
Defined.

(** X12 at work: a load of the id [A] from a database that also has
    [plugin.broken] leaves nothing under [plugin.broken]. *)
Lemma LoadAddonsFromDatabase_by_id_witness :
  m_latestPrivateVersions
    (LoadAddonsFromDatabase Z.gtb Sample.SYSTEM Sample.official Sample.mgr
       (Sample.db [Sample.a1; Sample.broken_remote; Sample.a2]) "A"
       Sample.empty_repos)
    !! "plugin.broken" = None.
Proof.
  pose proof (LoadAddonsFromDatabase_by_id Z Z.gtb Sample.SYSTEM
                Sample.official Sample.mgr
                (Sample.db [Sample.a1; Sample.broken_remote; Sample.a2]) "A"
                Sample.empty_repos) as H.
  destruct H as [_ H].
  - discriminate.
  - intros a Ha. vm_compute in Ha.
    apply elem_of_cons in Ha as [-> | Ha]; [reflexivity|].
    apply elem_of_cons in Ha as [-> | Ha]; [reflexivity|].
    now apply elem_of_nil in Ha.
  - destruct (H "plugin.broken") as (_ & Hpriv & _); [discriminate|].
    exact Hpriv.
Defined.

(** X13 at work: [a1] offered twice to the empty map. *)
Lemma AddAddonIfLatest_idempotent_witness :
  AddAddonIfLatest Z.gtb Sample.a1 (AddAddonIfLatest Z.gtb Sample.a1 ∅)
  = AddAddonIfLatest Z.gtb Sample.a1 ∅.
Proof.
  apply (AddAddonIfLatest_idempotent Z Z.gtb Zgtb_irrefl Sample.a1 ∅).
Defined.

(** X14 at work: [a2] is fetched, newer than the installed [a1] and fails
    the path-checked test; [a1] is offered an update at least as new. *)
Lemma DoAddonUpdateCheck_misses_no_newer_version_witness :
  exists u,
    DoAddonUpdateCheck Z.gtb Sample.SYSTEM Sample.mgr
      (Sample.load [Sample.a1; Sample.a2]) Sample.a1 None = (true, Some u) /\
    IsFromOfficialRepo Sample.SYSTEM Sample.official u true = false /\
    vge Z.gtb (Version u) (Version Sample.a2) = true.
Proof.
  assert (Sample.a2 ∈ fetched (Sample.db [Sample.a1; Sample.a2]) "") as Hin.
  { apply list_elem_of_In. vm_compute. tauto. }
  pose proof (DoAddonUpdateCheck_misses_no_newer_version Z Z.gtb
                Sample.SYSTEM Sample.official Sample.mgr
                Zgtb_irrefl Zgtb_trans
                (Sample.db [Sample.a1; Sample.a2]) "" Sample.empty_repos
                Sample.a1 None Sample.a2 Zgtb_weak Hin
                eq_refl eq_refl eq_refl) as (_ & Hprivate).
  apply Hprivate.
  - vm_compute. reflexivity.
  - discriminate.
  - vm_compute. reflexivity.
Defined.

(** X15 at work: the entry of the trusted repository. *)
Lemma LoadOfficialRepoInfo_of_pair_witness :
  LoadOfficialRepoInfo "repository.xbmc.org|https://mirrors.kodi.tv"
  = Some (mkRepoInfo "repository.xbmc.org" "https://mirrors.kodi.tv").
Proof.
  apply (LoadOfficialRepoInfo_of_pair "repository.xbmc.org"
           "https://mirrors.kodi.tv"); reflexivity.
Defined.

(** Records of two repositories with the same id and version: the record
    of the repository whose id comes first is held, in whichever order the
    two are fetched. *)
Example tie_across_repositories_on_sample :
  m_latestPrivateVersions (Sample.load [Sample.a1; Sample.aY]) !! "A"
  = Some Sample.a1 /\
  m_latestPrivateVersions (Sample.load [Sample.aY; Sample.a1]) !! "A"
  = Some Sample.a1 /\
  m_latestPrivateVersions (Sample.load [Sample.a1; Sample.aY])
  = m_latestPrivateVersions (Sample.load [Sample.aY; Sample.a1]) /\
  m_latestVersionsByRepo (Sample.load [Sample.a1; Sample.aY])
  = m_latestVersionsByRepo (Sample.load [Sample.aY; Sample.a1]).
Proof. repeat split; vm_compute; reflexivity. Qed.
